(** * Verification of the bush scraping scripts

    Shallow embedding of the Python scripts
      - specs/help/download_articles.py
      - specs/download_screenshots.py
      - specs/download_images.py
      - scrape/download_help_images.py

    Python [str] values are sequences of Unicode code points; they are
    modelled as [list N].  The [re] calls of the scripts are run by a small
    backtracking matcher for the fragment of regular expressions the scripts
    use (sequences of quantified character classes with capture groups). *)

From stdpp Require Import gmap strings finite sorting.
From Stdlib Require Import NArith ZArith Ascii Lia.
From Stdlib Require DecimalN.

Open Scope N_scope.

(** ** Python strings *)

Abbreviation str := (list N).

(** A string literal of the scripts (ASCII only) as a sequence of code points. *)
Fixpoint U (s : string) : str :=
  match s with
  | EmptyString => []
  | String a s' => N_of_ascii a :: U s'
  end.
Arguments U : simpl never.

Definition DQ : N := 34.   (* the double quote *)
Definition SQ : N := 39.   (* the single quote *)
Definition NL : N := 10.   (* the line feed *)

Definition str_eqb (a b : str) : bool := bool_decide (a = b).

(** [c in l] for a character and a string of candidates. *)
Definition mem (c : N) (l : str) : bool := existsb (N.eqb c) l.

(** [str.isspace] on one code point: the Unicode white space characters
    together with the separators U+001C to U+001F. *)
Definition isspace (c : N) : bool :=
  ((9 <=? c) && (c <=? 13)) || ((28 <=? c) && (c <=? 32))
  || (c =? 133) || (c =? 160) || (c =? 5760)
  || ((8192 <=? c) && (c <=? 8202))
  || (c =? 8232) || (c =? 8233) || (c =? 8239) || (c =? 8287) || (c =? 12288).

Definition is_upper (c : N) : bool := (65 <=? c) && (c <=? 90).
Definition is_lower (c : N) : bool := (97 <=? c) && (c <=? 122).
Definition is_digit (c : N) : bool := (48 <=? c) && (c <=? 57).
Definition is_ascii (c : N) : bool := c <? 128.

(** The character set that the specification calls safe: [[A-Za-z0-9_.-]]. *)
Definition safe_char (c : N) : bool :=
  is_upper c || is_lower c || is_digit c || (c =? 95) || (c =? 46) || (c =? 45).

(** ** Regular expressions of the scripts *)

(** One quantified character class [cls{lo,hi}], greedy or lazy, possibly
    wrapped in a capture group. *)
Record item := Item {
  cls : N -> bool;
  lo : nat;
  hi : option nat;
  greedy : bool;
  cap : bool
}.

Abbreviation pattern := (list item).
Abbreviation mresult := (option (list str * str)).

Definition room (h : option nat) : bool :=
  match h with Some O => false | _ => true end.

Definition close_group (it : item) (acc : str) (r : mresult) : mresult :=
  match r with
  | Some (g, rest) => Some (if cap it then rev acc :: g else g, rest)
  | None => None
  end.

(** Backtracking over one quantified class: [k] matches the rest of the
    pattern, [acc] holds the characters taken so far (reversed). *)
Fixpoint match_rep (it : item) (k : str -> mresult)
    (l : nat) (h : option nat) (acc : str) (s : str) {struct s} : mresult :=
  match s with
  | c :: s' =>
      if cls it c && room h then
        if greedy it then
          match match_rep it k (pred l) (option_map pred h) (c :: acc) s' with
          | Some r => Some r
          | None => match l with O => close_group it acc (k s) | _ => None end
          end
        else
          match (match l with O => close_group it acc (k s) | _ => None end) with
          | Some r => Some r
          | None => match_rep it k (pred l) (option_map pred h) (c :: acc) s'
          end
      else match l with O => close_group it acc (k s) | _ => None end
  | [] => match l with O => close_group it acc (k s) | _ => None end
  end.

(** [re.match]: the groups captured and the text left after the match. *)
Fixpoint match_items (p : pattern) (s : str) : mresult :=
  match p with
  | [] => Some ([], s)
  | it :: p' => match_rep it (match_items p') (lo it) (hi it) [] s
  end.

(** Replacement templates: literal text and back-references. *)
Inductive piece := Lit (s : str) | Ref (n : nat).

Definition expand (repl : list piece) (g : list str) : str :=
  flat_map (fun x => match x with Lit s => s | Ref n => nth (pred n) g [] end) repl.

(** [re.sub]: scan from the left; at a match emit the expanded template and
    continue after it ([skip] counts the characters of the match still to
    drop), otherwise copy one character. *)
Fixpoint sub_aux (p : pattern) (repl : list piece) (skip : nat) (s : str) : str :=
  match s with
  | [] => match match_items p [] with Some (g, _) => expand repl g | None => [] end
  | c :: s' =>
      match skip with
      | S k => sub_aux p repl k s'
      | O =>
          match match_items p s with
          | Some (g, rest) =>
              expand repl g ++
              match length s - length rest with
              | O => c :: sub_aux p repl O s'
              | S m => sub_aux p repl m s'
              end
          | None => c :: sub_aux p repl O s'
          end
      end
  end%nat.

Definition re_sub (p : pattern) (repl : list piece) (s : str) : str :=
  sub_aux p repl O s.

(** [re.finditer]: the non-overlapping matches from the left, each with the
    whole matched text (group 0) and its groups. *)
Fixpoint finditer_aux (p : pattern) (skip : nat) (s : str) : list (str * list str) :=
  match s with
  | [] => match match_items p [] with Some (g, _) => [([], g)] | None => [] end
  | c :: s' =>
      match skip with
      | S k => finditer_aux p k s'
      | O =>
          match match_items p s with
          | Some (g, rest) =>
              let n := (length s - length rest)%nat in
              (take n s, g) :: finditer_aux p (pred n) s'
          | None => finditer_aux p O s'
          end
      end
  end.

Definition re_finditer (p : pattern) (s : str) : list (str * list str) :=
  finditer_aux p O s.

(** [re.search]: the groups of the leftmost match. *)
Fixpoint re_search (p : pattern) (s : str) : option (list str) :=
  match match_items p s with
  | Some (g, _) => Some g
  | None => match s with [] => None | _ :: s' => re_search p s' end
  end.

(** *** Pattern syntax *)

Definition one (f : N -> bool) : item := Item f 1 (Some 1%nat) true false.
Definition chr (c : N) : item := one (N.eqb c).
Definition lit (s : string) : pattern := map chr (U s).
Definition star (f : N -> bool) : item := Item f 0 None true false.
Definition plus (f : N -> bool) : item := Item f 1 None true false.
Definition lazy_star (f : N -> bool) : item := Item f 0 None false false.
Definition opt (f : N -> bool) : item := Item f 0 (Some 1%nat) true false.
Definition atleast (n : nat) (f : N -> bool) : item := Item f n None true false.
Definition grp (it : item) : item :=
  Item (cls it) (lo it) (hi it) (greedy it) true.

Definition anyc : N -> bool := fun _ => true.
Definition isc (c : N) : N -> bool := N.eqb c.
Definition notc (c : N) : N -> bool := fun x => negb (x =? c).
Definition notin (l : str) : N -> bool := fun x => negb (mem x l).

Definition LT : N := 60.   (* < *)
Definition GT : N := 62.   (* > *)

(** ** download_articles.py: html_to_markdown *)

(** An element whose text holds no further tag: the opening tag with any
    attributes, a captured run of characters other than LT (one or more for
    [tag_plus], any number for [tag_star]), and the closing tag. *)
Definition tag_plus (t : string) : pattern :=
  lit "<" ++ lit t ++ [star (notc GT)] ++ lit ">" ++ [grp (plus (notc LT))]
  ++ lit "</" ++ lit t ++ lit ">".
Definition tag_star (t : string) : pattern :=
  lit "<" ++ lit t ++ [star (notc GT)] ++ lit ">" ++ [grp (star (notc LT))]
  ++ lit "</" ++ lit t ++ lit ">".
(** An element with any content, matched lazily up to the first closing tag
    (the dot of the source matches line feeds too: [re.DOTALL]). *)
Definition tag_block (t : string) : pattern :=
  lit "<" ++ lit t ++ [star (notc GT)] ++ lit ">" ++ [lazy_star anyc]
  ++ lit "</" ++ lit t ++ lit ">".
(** An opening tag with any attributes. *)
Definition tag_open (t : string) : pattern :=
  lit "<" ++ lit t ++ [star (notc GT)] ++ lit ">".

(** A link: group 1 is the value of the double-quoted href attribute,
    group 2 the text of the link. *)
Definition link_re : pattern :=
  lit "<a" ++ [star (notc GT)] ++ lit "href=" ++ [chr DQ; grp (star (notc DQ)); chr DQ]
  ++ [star (notc GT)] ++ lit ">" ++ [grp (star (notc LT))] ++ lit "</a>".

(** A line break tag: white space and one optional slash before GT. *)
Definition br_re : pattern :=
  lit "<br" ++ [star isspace; opt (isc 47)] ++ lit ">".

(** Any remaining tag: LT, one or more characters other than GT, GT. *)
Definition any_tag_re : pattern := lit "<" ++ [plus (notc GT)] ++ lit ">".

(** Three or more line feeds; two or more spaces. *)
Definition newlines_re : pattern := [atleast 3 (isc NL)].
Definition spaces_re : pattern := [atleast 2 (isc 32)].

(** [str.lstrip], [str.rstrip] and [str.strip] without argument. *)
Fixpoint lstrip (s : str) : str :=
  match s with
  | c :: s' => if isspace c then lstrip s' else s
  | [] => []
  end.
Definition rstrip (s : str) : str := rev (lstrip (rev s)).
Definition strip (s : str) : str := rstrip (lstrip s).

Definition html_to_markdown (html : str) : str :=
  (* Remove scripts and styles *)
  let html := re_sub (tag_block "script") [] html in
  let html := re_sub (tag_block "style") [] html in
  (* Convert headers *)
  let html := re_sub (tag_plus "h1") [Lit (U "# "); Ref 1] html in
  let html := re_sub (tag_plus "h2") [Lit (U "## "); Ref 1] html in
  let html := re_sub (tag_plus "h3") [Lit (U "### "); Ref 1] html in
  let html := re_sub (tag_plus "h4") [Lit (U "#### "); Ref 1] html in
  (* Convert paragraphs *)
  let html := re_sub (tag_star "p") [Ref 1; Lit [NL; NL]] html in
  (* Convert links *)
  let html := re_sub link_re [Lit (U "["); Ref 2; Lit (U "]("); Ref 1; Lit (U ")")] html in
  (* Convert bold and italic *)
  let html := re_sub (tag_star "strong") [Lit (U "**"); Ref 1; Lit (U "**")] html in
  let html := re_sub (tag_star "b") [Lit (U "**"); Ref 1; Lit (U "**")] html in
  let html := re_sub (tag_star "em") [Lit (U "*"); Ref 1; Lit (U "*")] html in
  let html := re_sub (tag_star "i") [Lit (U "*"); Ref 1; Lit (U "*")] html in
  (* Convert lists *)
  let html := re_sub (tag_star "li") [Lit (U "- "); Ref 1; Lit [NL]] html in
  let html := re_sub (tag_open "ul") [] html in
  let html := re_sub (lit "</ul>") [Lit [NL]] html in
  let html := re_sub (tag_open "ol") [] html in
  let html := re_sub (lit "</ol>") [Lit [NL]] html in
  (* Convert code *)
  let html := re_sub (tag_star "code") [Lit (U "`"); Ref 1; Lit (U "`")] html in
  let html := re_sub (tag_star "pre")
                [Lit (U "```" ++ [NL]); Ref 1; Lit (NL :: U "```")] html in
  (* Convert line breaks *)
  let html := re_sub br_re [Lit [NL]] html in
  (* Remove remaining tags *)
  let html := re_sub any_tag_re [] html in
  (* Clean up whitespace *)
  let html := re_sub newlines_re [Lit [NL; NL]] html in
  let html := re_sub spaces_re [Lit (U " ")] html in
  strip html.

(** [a.startswith(b)] and [b in a] on strings. *)
Fixpoint startswith (a b : str) : bool :=
  match b, a with
  | [], _ => true
  | y :: b', x :: a' => (x =? y) && startswith a' b'
  | _ :: _, [] => false
  end.

(** ** Vocabulary of the statements *)

(** The longest prefix of characters of a class, and what follows it. *)
Fixpoint run (f : N -> bool) (s : str) : str :=
  match s with
  | c :: s' => if f c then c :: run f s' else []
  | [] => []
  end.
Fixpoint after (f : N -> bool) (s : str) : str :=
  match s with
  | c :: s' => if f c then after f s' else s
  | [] => []
  end.

(** No complete tag is left in [s]: a LT is followed at once by GT, or by
    no GT at all. *)
Fixpoint notag (s : str) : Prop :=
  match s with
  | [] => True
  | c :: s' => (c = LT -> (exists t, s' = GT :: t) \/ GT ∉ s') /\ notag s'
  end.

(** [t] is [s] with some characters other than LT and GT deleted. *)
Inductive thin : str -> str -> Prop :=
  | thin_nil : thin [] []
  | thin_keep c s t : thin s t -> thin (c :: s) (c :: t)
  | thin_drop c s t : c <> LT -> c <> GT -> thin s t -> thin (c :: s) t.

(** ** Exceptions *)

Inductive exn := ValueError | IndexError | OSError | UnicodeError.

Inductive result (A : Type) : Type :=
  | Ret (a : A)
  | Raise (e : exn).
Arguments Ret {A} a.
Arguments Raise {A} e.

Definition bind {A B} (m : result A) (f : A -> result B) : result B :=
  match m with
  | Ret a => f a
  | Raise e => Raise e
  end.

Notation "'let!' x ':=' m 'in' k" := (bind m (fun x => k))
  (at level 10, x name, m at level 100, k at level 200).

(** ** The Python runtime

    Tables and implementation choices of the interpreter and its library
    that the scripts rely on and that are no part of the repository. *)
Record runtime := Runtime {
  (** [str.isalnum] on a code point outside ASCII *)
  uni_alnum : N -> bool;
  (** [str.lower] on a string that holds a character outside ASCII (the
      result depends on the context of a letter: a capital sigma at the end
      of a word gives the final sigma) *)
  uni_lower : str -> str;
  (** the checks of [urllib.parse] on a bracketed or non-ASCII network
      location (the host between brackets is an IP literal, no character
      normalises to a delimiter) *)
  netloc_ok : str -> bool;
  (** the built-in [hash] on strings *)
  str_hash : str -> Z;
  (** [bytes.decode('utf-8')] *)
  utf8_decode : list N -> option str
}.

(** The class of word characters of [re] on [str] patterns: alphanumeric
    characters of Unicode and the underscore. *)
Definition word (rt : runtime) (c : N) : bool :=
  if is_ascii c then is_upper c || is_lower c || is_digit c || (c =? 95)
  else uni_alnum rt c.

(** [str.lower]: letter by letter on an ASCII string, the lowering of the
    runtime on any other. *)
Definition ascii_lower (c : N) : N := if is_upper c then c + 32 else c.
Definition lower (rt : runtime) (s : str) : str :=
  if forallb is_ascii s then map ascii_lower s else uni_lower rt s.

(** ** String methods *)

(** [s.split(c)] for a separator of one character. *)
Fixpoint split_on (c : N) (s : str) : list str :=
  match s with
  | [] => [[]]
  | x :: s' =>
      if x =? c then [] :: split_on c s'
      else match split_on c s' with
           | w :: ws => (x :: w) :: ws
           | [] => [[x]]
           end
  end.

(** [s.endswith(e)]. *)
Definition endswith (s e : str) : bool := startswith (rev s) (rev e).

(** [s.replace(old, new)]: the occurrences of [old] from the left. *)
Fixpoint replace_aux (old new : str) (skip : nat) (s : str) : str :=
  match s with
  | [] => []
  | c :: s' =>
      match skip with
      | S k => replace_aux old new k s'
      | O => if startswith s old
             then new ++ replace_aux old new (pred (length old)) s'
             else c :: replace_aux old new O s'
      end
  end.
Definition replace (old new s : str) : str := replace_aux old new O s.

(** [p[p.rfind(c)+1:]]: what follows the last [c]. *)
Definition after_last (c : N) (p : str) : str := rev (run (notc c) (rev p)).

(** ** urllib.parse *)

Record parsed := Parsed {
  scheme : str;
  netloc : str;
  path : str;
  params : str;
  query : str;
  fragment : str
}.

Definition scheme_char (c : N) : bool :=
  is_upper c || is_lower c || is_digit c || (c =? 43) || (c =? 45) || (c =? 46).

Definition uses_relative : list str := map U
  [""; "ftp"; "http"; "gopher"; "nntp"; "imap"; "wais"; "file"; "https";
   "shttp"; "mms"; "prospero"; "rtsp"; "rtspu"; "sftp"; "svn"; "svn+ssh";
   "ws"; "wss"]%string.
Definition uses_netloc : list str := map U
  [""; "ftp"; "http"; "gopher"; "nntp"; "telnet"; "imap"; "wais"; "file";
   "mms"; "https"; "shttp"; "snews"; "prospero"; "rtsp"; "rtspu"; "rsync";
   "svn"; "svn+ssh"; "sftp"; "nfs"; "git"; "git+ssh"; "ws"; "wss";
   "itms-services"]%string.
Definition uses_params : list str := map U
  [""; "ftp"; "hdl"; "prospero"; "http"; "imap"; "https"; "shttp"; "rtsp";
   "rtspu"; "sip"; "sips"; "mms"; "sftp"; "tel"]%string.

Definition in_list (x : str) (l : list str) : bool := existsb (str_eqb x) l.

(** The part of [s] before the first [c], and the part after it if [c]
    occurs ([s.partition(c)]). *)
Definition cut (c : N) (s : str) : str * option str :=
  (run (notc c) s,
   match after (notc c) s with
   | _ :: r => Some r
   | [] => None
   end).

(** [urlsplit(url, scheme)]: scheme, network location, path, query and
    fragment.  Leading control characters and spaces are stripped, tabs and
    line ends removed; an unbalanced bracket in the network location is an
    invalid IPv6 URL. *)
Definition urlsplit (rt : runtime) (url : str) (default_scheme : str)
  : result (str * str * str * str * str) :=
  let url := after (fun c => c <=? 32) url in
  let url := filter (fun c => negb (mem c [9; 13; 10])) url in
  let dscheme := filter (fun c => negb (mem c [9; 13; 10]))
                   (rev (after (fun c => c <=? 32)
                      (rev (after (fun c => c <=? 32) default_scheme)))) in
  let '(sch, url) :=
    match cut 58 url with
    | (c :: pre, Some rest) =>
        if (is_upper c || is_lower c) && forallb scheme_char (c :: pre)
        then (map (fun x => if is_upper x then x + 32 else x) (c :: pre), rest)
        else (dscheme, url)
    | _ => (dscheme, url)
    end in
  let '(nl, url) :=
    if startswith url (U "//")
    then (run (notin (U "/?#")) (drop 2 url), after (notin (U "/?#")) (drop 2 url))
    else ([], url) in
  if (mem 91 nl && negb (mem 93 nl)) || (mem 93 nl && negb (mem 91 nl))
  then Raise ValueError
  else
    let '(url, frag) :=
      match cut 35 url with (u, Some f) => (u, f) | (u, None) => (u, []) end in
    let '(url, q) :=
      match cut 63 url with (u, Some f) => (u, f) | (u, None) => (u, []) end in
    if forallb is_ascii nl && negb (mem 91 nl) || netloc_ok rt nl
    then Ret (sch, nl, url, q, frag)
    else Raise ValueError.

(** [_splitparams]: the parameters follow the first semicolon of the last
    path segment. *)
Definition splitparams (url : str) : str * str :=
  let last := after_last 47 url in
  let head := take (length url - length last) url in
  match cut 59 last with
  | (a, Some b) => (head ++ a, b)
  | (_, None) => (url, [])
  end.

(** [urlparse(url, scheme)]. *)
Definition urlparse (rt : runtime) (url : str) (default_scheme : str) : result parsed :=
  let! r := urlsplit rt url default_scheme in
  let '(sch, nl, url, q, frag) := r in
  let '(url, prm) :=
    if in_list sch uses_params && mem 59 url then splitparams url else (url, []) in
  Ret (Parsed sch nl url prm q frag).

(** [os.path.basename]. *)
Definition basename (p : str) : str := after_last 47 p.

(** ** download_screenshots.py: sanitize_filename *)

(** The character class of unsafe characters: neither a word character nor
    a hyphen nor a dot. *)
Definition unsafe (rt : runtime) (c : N) : bool :=
  negb (word rt c || (c =? 45) || (c =? 46)).

Definition sanitize_filename (rt : runtime) (url : str) : result str :=
  let! parsed := urlparse rt url [] in
  let path := path parsed in
  (* Get the filename part *)
  let filename := basename path in
  (* Remove query parameters *)
  let filename := hd [] (split_on 63 filename) in
  (* Replace unsafe characters *)
  let filename := re_sub [one (unsafe rt)] [Lit (U "_")] filename in
  Ret (match filename with [] => U "image" | _ => filename end).

(** A runtime to evaluate the definitions on concrete inputs.  Its character
    tables are those of Unicode on Latin-1 (U+0000 to U+00FF); every network
    location passes the checks; the hash and the decoder are placeholders. *)
Definition latin1_alnum (c : N) : bool :=
  (c =? 170) || (c =? 178) || (c =? 179) || (c =? 181) || (c =? 185) || (c =? 186)
  || ((188 <=? c) && (c <=? 190))
  || ((192 <=? c) && (c <=? 255) && negb (c =? 215) && negb (c =? 247)).
Definition latin1_lower (s : str) : str :=
  map (fun c => if (192 <=? c) && (c <=? 222) && negb (c =? 215) then c + 32
                else ascii_lower c) s.
Definition rt_eval : runtime :=
  Runtime latin1_alnum latin1_lower (fun _ => true) (fun _ => 0%Z) (fun b => Some b).

(** ** urllib.parse: urljoin *)

Definition nonempty (s : str) : bool := match s with [] => false | _ => true end.

(** [sep.join(l)]. *)
Fixpoint join (sep : str) (l : list str) : str :=
  match l with
  | [] => []
  | [x] => x
  | x :: l' => x ++ sep ++ join sep l'
  end.

Definition urlunsplit (sch nl url q frag : str) : str :=
  let url :=
    if nonempty nl
       || (nonempty sch && in_list sch uses_netloc && negb (startswith url (U "//")))
    then
      let url := if nonempty url && negb (startswith url (U "/"))
                 then U "/" ++ url else url in
      U "//" ++ nl ++ url
    else url in
  let url := if nonempty sch then sch ++ U ":" ++ url else url in
  let url := if nonempty q then url ++ U "?" ++ q else url in
  if nonempty frag then url ++ U "#" ++ frag else url.

Definition urlunparse (p : parsed) : str :=
  let url := if nonempty (params p) then path p ++ U ";" ++ params p else path p in
  urlunsplit (scheme p) (netloc p) url (query p) (fragment p).

(** [segments[1:-1] = filter(None, segments[1:-1])]: the empty segments
    between the first and the last one are dropped. *)
Definition drop_empty_middle (segs : list str) : list str :=
  match segs with
  | x :: (_ :: _) as rest =>
      x :: filter (fun s => nonempty s) (removelast rest) ++ [List.last rest []]
  | _ => segs
  end.

(** The loop of [urljoin] over the segments: [..] pops, [.] is skipped. *)
Fixpoint resolve (segs : list str) (resolved : list str) : list str :=
  match segs with
  | [] => resolved
  | seg :: segs' =>
      if str_eqb seg (U "..") then resolve segs' (removelast resolved)
      else if str_eqb seg (U ".") then resolve segs' resolved
      else resolve segs' (resolved ++ [seg])
  end.

Definition urljoin (rt : runtime) (base url : str) : result str :=
  if negb (nonempty base) then Ret url
  else if negb (nonempty url) then Ret base
  else
    let! b := urlparse rt base [] in
    let! u := urlparse rt url (scheme b) in
    if negb (str_eqb (scheme u) (scheme b)) || negb (in_list (scheme u) uses_relative)
    then Ret url
    else if in_list (scheme u) uses_netloc && nonempty (netloc u)
    then Ret (urlunparse u)
    else
      let nl := if in_list (scheme u) uses_netloc then netloc b else netloc u in
      if negb (nonempty (path u)) && negb (nonempty (params u))
      then
        Ret (urlunparse (Parsed (scheme u) nl (path b) (params b)
                           (if nonempty (query u) then query u else query b)
                           (fragment u)))
      else
        let base_parts := split_on 47 (path b) in
        let base_parts :=
          if nonempty (List.last base_parts []) then removelast base_parts
          else base_parts in
        let segments :=
          if startswith (path u) (U "/") then split_on 47 (path u)
          else drop_empty_middle (base_parts ++ split_on 47 (path u)) in
        let resolved := resolve segments [] in
        let resolved :=
          if in_list (List.last segments []) [U "."; U ".."]
          then resolved ++ [[]] else resolved in
        let joined := join (U "/") resolved in
        Ret (urlunparse (Parsed (scheme u) nl
                           (if nonempty joined then joined else U "/")
                           (params u) (query u) (fragment u))).

(** ** download_screenshots.py: extract_image_urls *)

(** A literal character under [re.IGNORECASE]: both cases of a letter, and
    the characters that fold to it (dotted capital I and dotless i for i,
    long s for s, the Kelvin sign for k). *)
Definition ci (c : N) : N -> bool := fun x =>
  (x =? c) || (is_lower c && (x =? c - 32)) || (is_upper c && (x =? c + 32))
  || (((c =? 105) || (c =? 73)) && ((x =? 304) || (x =? 305)))
  || (((c =? 115) || (c =? 83)) && (x =? 383))
  || (((c =? 107) || (c =? 75)) && (x =? 8490)).
Definition lit_i (s : string) : pattern := map (fun c => one (ci c)) (U s).

Definition quote (c : N) : bool := mem c [DQ; SQ].

(** The img tag with a quoted src attribute; group 1 is its value. *)
Definition img_pattern : pattern :=
  lit_i "<img" ++ [plus (notc GT)] ++ lit_i "src="
  ++ [one quote; grp (plus (notin [DQ; SQ])); one quote].
(** A quoted srcset attribute; group 1 is its value. *)
Definition srcset_pattern : pattern :=
  lit_i "srcset=" ++ [one quote; grp (plus (notin [DQ; SQ])); one quote].
(** A CSS url reference with optional quotes; group 1 is the address. *)
Definition bg_pattern : pattern :=
  lit_i "url(" ++ [opt quote; grp (plus (notin [41; DQ; SQ])); opt quote] ++ lit ")".
(** The three CDN shapes: the prefix, then one or more characters other
    than quotes, GT and white space. *)
Definition cdn_tail : item := plus (fun c => negb (mem c [DQ; SQ; GT] || isspace c)).
Definition sanity_pattern : pattern := lit "https://cdn.sanity.io/images/" ++ [cdn_tail].
Definition intercom_pattern : pattern := lit "https://downloads.intercomcdn.com/" ++ [cdn_tail].
Definition fern_pattern : pattern := lit "https://files.buildwithfern.com/" ++ [cdn_tail].

(** The normalisation that the three first loops apply to a match. *)
Definition normalize_url (rt : runtime) (base_url url : str) : result str :=
  if startswith url (U "//") then Ret (U "https:" ++ url)
  else if startswith url (U "/") then urljoin rt base_url url
  else if negb (startswith url (U "http")) then urljoin rt base_url url
  else Ret url.

(** [part.strip().split()[0]]: the first token of a srcset entry. *)
Definition first_token (part : str) : result str :=
  match lstrip part with
  | [] => Raise IndexError
  | s => Ret (run (fun c => negb (isspace c)) s)
  end.

(** A loop [for x in l: urls.add(f(x))]. *)
Fixpoint add_each {X} (f : X -> result str) (l : list X) (urls : gset str)
  : result (gset str) :=
  match l with
  | [] => Ret urls
  | x :: l' => let! u := f x in add_each f l' ({[u]} ∪ urls)
  end.

Definition group1 (m : str * list str) : str := nth 0 (snd m) [].

Definition img_srcs (html : str) : list str :=
  map group1 (re_finditer img_pattern html).
Definition srcset_parts (html : str) : list str :=
  flat_map (fun m => split_on 44 (group1 m)) (re_finditer srcset_pattern html).
Definition bg_urls (html : str) : list str :=
  map group1 (re_finditer bg_pattern html).
Definition cdn_urls (html : str) : list str :=
  map fst (re_finditer sanity_pattern html)
  ++ map fst (re_finditer intercom_pattern html)
  ++ map fst (re_finditer fern_pattern html).

Definition extract_image_urls (rt : runtime) (html_content base_url : str)
  : result (gset str) :=
  let urls : gset str := ∅ in
  (* Match img src attributes *)
  let! urls := add_each (normalize_url rt base_url) (img_srcs html_content) urls in
  (* Match srcset attributes *)
  let! urls := add_each (fun part => let! url := first_token part in
                                     normalize_url rt base_url url)
                 (srcset_parts html_content) urls in
  (* Match background-image URLs in style attributes *)
  let! urls := add_each (normalize_url rt base_url) (bg_urls html_content) urls in
  (* Match CDN Sanity, intercomcdn and buildwithfern URLs *)
  add_each Ret (cdn_urls html_content) urls.

(** ** The references of a page, read off its text

    The counts that bound the extraction, defined on the text itself and
    not through the matcher: every place where the text has the shape in
    question counts, whatever precedes it. *)

(** The text from each position on. *)
Fixpoint suffixes (s : str) : list str :=
  s :: match s with [] => [] | _ :: s' => suffixes s' end.

(** The ways to cut a text after a non-empty beginning. *)
Fixpoint heads (s : str) : list (str * str) :=
  match s with
  | [] => []
  | c :: s' => ([c], s') :: map (fun xb => (c :: fst xb, snd xb)) (heads s')
  end.

(** Whether a text starts with a keyword, whatever the case of its
    letters. *)
Fixpoint starts_ci (keyword s : str) : bool :=
  match keyword, s with
  | [], _ => true
  | c :: keyword', x :: s' => ci c x && starts_ci keyword' s'
  | _ :: _, [] => false
  end.

(** The value at the start of a text: a quote, a non-empty text free of
    quotes, a quote. *)
Definition quoted (s : str) : list str :=
  match s with
  | q :: s' =>
      if quote q then
        flat_map (fun xb => match snd xb with
                            | q' :: _ =>
                                if quote q' && forallb (notin [DQ; SQ]) (fst xb)
                                then [fst xb] else []
                            | [] => []
                            end) (heads s')
      else []
  | [] => []
  end.

(** The values that follow the text src= inside an img tag: after the
    opening of the tag come one or more characters other than GT, then src=
    and the quoted value. *)
Definition text_img_srcs (html : str) : list str :=
  flat_map (fun tail =>
      if starts_ci (U "<img") tail then
        flat_map (fun tb =>
            if forallb (notc GT) (fst tb) && starts_ci (U "src=") (snd tb)
            then quoted (drop 4 (snd tb)) else [])
          (heads (drop 4 tail))
      else [])
    (suffixes html).

(** The entries, between commas, of the quoted values that follow the text
    srcset= anywhere. *)
Definition text_srcset_entries (html : str) : list str :=
  flat_map (split_on 44)
    (flat_map (fun tail =>
         if starts_ci (U "srcset=") tail then quoted (drop 7 tail) else [])
       (suffixes html)).

(** A CSS reference after its opening parenthesis: an optional quote, a
    non-empty text free of quotes and closing parentheses, an optional quote,
    the closing parenthesis. *)
Definition closes (s : str) : bool :=
  match s with
  | c :: s' =>
      (c =? 41) || (quote c && match s' with c' :: _ => c' =? 41 | [] => false end)
  | [] => false
  end.
Definition bare_ref (s : str) : list str :=
  flat_map (fun xb =>
      if forallb (notin [41; DQ; SQ]) (fst xb) && closes (snd xb) then [fst xb] else [])
    (heads s).
Definition css_ref (s : str) : list str :=
  bare_ref s
  ++ match s with
     | q :: s' => if quote q then bare_ref s' else []
     | [] => []
     end.

(** The addresses of the CSS references url(...) anywhere in the text. *)
Definition text_css_urls (html : str) : list str :=
  flat_map (fun tail => if starts_ci (U "url(") tail then css_ref (drop 4 tail) else [])
    (suffixes html).

(** The prefixes of the three CDNs. *)
Definition cdn_prefixes : list str :=
  map U ["https://cdn.sanity.io/images/"; "https://downloads.intercomcdn.com/";
         "https://files.buildwithfern.com/"]%string.

(** The CDN-shaped substrings: a CDN prefix and the characters after it up
    to the first quote, GT or white space (or the end), at least one. *)
Definition cdn_char (c : N) : bool := negb (mem c [DQ; SQ; GT] || isspace c).
Definition text_cdn_urls (html : str) : list str :=
  flat_map (fun prefix =>
      flat_map (fun tail =>
          if startswith tail prefix then
            let rest := drop (length prefix) tail in
            match run cdn_char rest with
            | [] => []
            | name => [prefix ++ name]
            end
          else [])
        (suffixes html))
    cdn_prefixes.

(** ** The world: network and file system *)

(** What a GET request meets: no answer in time, a transport failure, or a
    response with its status code and body. *)
Inductive response :=
  | Timeout
  | ConnError
  | Http (status : N) (body : list N).

(** A path is the sequence of its components under the root; a file holds
    a sequence of bytes (or, for the Markdown files, of characters). *)
Abbreviation path_t := (list str).
Abbreviation fsys := (gmap (list str) (list N)).

(** What [with open(p, 'w') as f: f.write(data)] meets: the data are
    written; the open fails (permissions, parent directory) and the file is
    as it was; or the open succeeds, which empties the file, and the write or
    the flush fails (disk full), leaving [residue] in it. *)
Inductive write_outcome :=
  | Written
  | OpenFails
  | WriteFails (residue : list N).

Record world := World {
  net : str -> response;
  (** what writing the data at a path meets *)
  disk : path_t -> list N -> write_outcome
}.

(** [urllib.request.urlopen(...).read()]: a status outside 2xx raises
    HTTPError, a timeout or transport failure raises URLError; both are
    OSError. *)
Definition urlopen (w : world) (url : str) : result (list N) :=
  match net w url with
  | Http st body => if (200 <=? st) && (st <? 300) then Ret body else Raise OSError
  | _ => Raise OSError
  end.

(** [requests.get]: the response whatever its status; a timeout or
    transport failure raises. *)
Definition requests_get (w : world) (url : str) : result (N * list N) :=
  match net w url with
  | Http st body => Ret (st, body)
  | _ => Raise OSError
  end.

(** [with open(p, 'w') as f: f.write(data)]: whether it raised, and the
    files afterwards. *)
Definition write_file (w : world) (fs : fsys) (p : path_t) (data : list N)
  : result unit * fsys :=
  match disk w p data with
  | Written => (Ret tt, <[p := data]> fs)
  | OpenFails => (Raise OSError, fs)
  | WriteFails residue => (Raise OSError, <[p := residue]> fs)
  end.

(** A fetch that fails as the error contract names it: no answer in time,
    or status 404. *)
Definition fetch_fails (w : world) (url : str) : Prop :=
  net w url = Timeout \/ exists body, net w url = Http 404 body.

(** [pathlib]: the components of a relative name, and [d / name]. *)
Definition parts (s : str) : list str :=
  filter (fun x => nonempty x && negb (str_eqb x (U "."))) (split_on 47 s).
Definition pjoin (d : path_t) (name : str) : path_t :=
  if startswith name (U "/") then parts name else d ++ parts name.

(** ** download_help_images.py and download_images.py: download *)

(** The try block returns True after the write; any exception is caught
    and gives False. *)
Definition download (w : world) (fs : fsys) (url : str) (p : path_t) : bool * fsys :=
  match urlopen w url with
  | Ret data =>
      match write_file w fs p data with
      | (Ret _, fs') => (true, fs')
      | (Raise _, fs') => (false, fs')
      end
  | Raise _ => (false, fs)
  end.

(** ** download_screenshots.py: download_image *)

Definition download_image (w : world) (fs : fsys) (url : str) (output_path : path_t)
  : bool * fsys :=
  match requests_get w url with
  | Ret (status_code, content) =>
      if status_code =? 200
      then match write_file w fs output_path content with
           | (Ret _, fs') => (true, fs')
           | (Raise _, fs') => (false, fs')
           end
      else (false, fs)
  | Raise _ => (false, fs)
  end.

(** ** download_articles.py *)

Definition fetch_article (rt : runtime) (w : world) (url : str) : option str :=
  match (let! b := urlopen w url in
         match utf8_decode rt b with
         | Some s => Ret s
         | None => Raise UnicodeError
         end) with
  | Ret s => Some s
  | Raise _ => None
  end.

(** The article body: a div whose class attribute holds article_body, its
    content (lazily) up to two closing div tags and the closing article tag;
    group 1 is the content. *)
Definition body_re : pattern :=
  lit "<div" ++ [star (notc GT)] ++ lit "class=" ++ [chr DQ; star (notc DQ)]
  ++ lit "article_body" ++ [star (notc DQ); chr DQ; star (notc GT)] ++ lit ">"
  ++ [grp (lazy_star anyc)] ++ lit "</div>" ++ [star isspace] ++ lit "</div>"
  ++ [star isspace] ++ lit "</article>".
(** The whole article element; group 1 is its content. *)
Definition article_re : pattern :=
  lit "<article" ++ [star (notc GT)] ++ lit ">" ++ [grp (lazy_star anyc)]
  ++ lit "</article>".

Definition extract_content (html : str) : str * str :=
  (* Extract title *)
  let title :=
    match re_search (tag_plus "h1") html with
    | Some g => nth 0 g []
    | None => U "Untitled"
    end in
  (* Extract article body *)
  let body :=
    match re_search body_re html with
    | Some g => nth 0 g []
    | None =>
        (* Try alternative pattern *)
        match re_search article_re html with
        | Some g => nth 0 g []
        | None => []
        end
    end in
  (title, body).

(** The Markdown document: front matter, converted body, footer. *)
Definition article_md (title url category content : str) : str :=
  U "# " ++ title ++ [NL; NL]
  ++ U "> Source: " ++ url ++ [NL]
  ++ U "> Category: " ++ category ++ [NL; NL]
  ++ U "---" ++ [NL; NL]
  ++ content ++ [NL; NL]
  ++ U "---" ++ [NL]
  ++ U "*This article was automatically converted from the Frame.io Help Center.*"
  ++ [NL].

Definition save_article (rt : runtime) (w : world) (fs : fsys)
    (url : str) (filepath : path_t) (category : str) : bool * fsys :=
  match fs !! filepath with
  | Some _ => (true, fs)
  | None =>
      match fetch_article rt w url with
      | None => (false, fs)
      | Some [] => (false, fs)
      | Some html =>
          let '(title, body) := extract_content html in
          let content := html_to_markdown body in
          let md := article_md title url category content in
          match write_file w fs filepath md with
          | (Ret _, fs') => (true, fs')
          | (Raise _, fs') => (false, fs')
          end
      end
  end.

(** [BASE] of download_articles.py. *)
Definition ARTICLES_BASE : path_t := parts (U "/home/jean-marc/src/bush/specs/help").

(** The two substitutions of [main] on a title: characters that are
    neither word characters nor white space nor hyphens are deleted, then
    each run of hyphens and white space becomes one hyphen. *)
Definition safe_title (rt : runtime) (title : str) : str :=
  let t := re_sub [one (fun c => negb (word rt c || isspace c || (c =? 45)))] [] title in
  let t := re_sub [plus (fun c => (c =? 45) || isspace c)] [Lit (U "-")] t in
  take 60 (lower rt t).

Definition article_url (slug : str) : str := U "https://help.frame.io/en/articles/" ++ slug.

Definition article_filename (rt : runtime) (slug title : str) : str :=
  hd [] (split_on 45 slug) ++ U "_" ++ safe_title rt title ++ U ".md".

(** The state of [main]: the success counter, the failed list, the files. *)
Definition article_step (rt : runtime) (w : world) (category : str)
    (st : nat * list (str * str) * fsys) (entry : str * str)
  : nat * list (str * str) * fsys :=
  let '(success, failed, fs) := st in
  let '(slug, title) := entry in
  let url := article_url slug in
  let filepath :=
    pjoin (pjoin ARTICLES_BASE category) (article_filename rt slug title) in
  let '(ok, fs') := save_article rt w fs url filepath category in
  if ok then (S success, failed, fs')
  else (success, failed ++ [(url, title)], fs').

(** [main] over the manifest [articles] (the dictionary ARTICLES, in its
    order): total, success counter, failed list and files at the end. *)
Definition articles_main (rt : runtime) (w : world)
    (articles : list (str * list (str * str))) (fs : fsys)
  : nat * nat * list (str * str) * fsys :=
  let total := list_sum (map (fun ca => length (snd ca)) articles) in
  let '(success, failed, fs') :=
    foldl (fun st ca => foldl (article_step rt w (fst ca)) st (snd ca))
          (O, [], fs) articles in
  (total, success, failed, fs').

(** ** download_help_images.py: main *)

Definition HELP_DIR : path_t :=
  parts (U "/home/jean-marc/src/bush/specs/images") ++ [U "help_docs"].

(** Decimal digits of a number. *)
Fixpoint uint_chars (u : Decimal.uint) : str :=
  match u with
  | Decimal.Nil => []
  | Decimal.D0 u => 48 :: uint_chars u
  | Decimal.D1 u => 49 :: uint_chars u
  | Decimal.D2 u => 50 :: uint_chars u
  | Decimal.D3 u => 51 :: uint_chars u
  | Decimal.D4 u => 52 :: uint_chars u
  | Decimal.D5 u => 53 :: uint_chars u
  | Decimal.D6 u => 54 :: uint_chars u
  | Decimal.D7 u => 55 :: uint_chars u
  | Decimal.D8 u => 56 :: uint_chars u
  | Decimal.D9 u => 57 :: uint_chars u
  end.
Definition dec (n : N) : str := uint_chars (N.to_uint n).

(** The format [{i:03d}]. *)
Definition fmt_03d (i : nat) : str :=
  let d := dec (N.of_nat i) in replicate (3 - length d) 48 ++ d.

Definition image_exts : list str := map U [".png"; ".jpg"; ".jpeg"; ".gif"; ".webp"]%string.

(** The name that [main] derives from a URL. *)
Definition help_image_name (url : str) : str :=
  let name := List.last (split_on 47 url) [] in
  let name := hd [] (split_on 63 name) in
  (* Clean up URL encoding *)
  let name := replace (U "%20") (U " ")
                (replace (U "%2F") (U "/") (replace (U "%2B") (U "+") name)) in
  (* Truncate long names *)
  let name := if (80 <? length name)%nat then take 80 name else name in
  (* Add extension if missing *)
  if existsb (endswith name) image_exts then name else name ++ U ".png".

Definition help_output_path (i : nat) (url : str) : path_t :=
  pjoin HELP_DIR (fmt_03d i ++ U "_" ++ help_image_name url).

(** The state of the loop: the index of [enumerate], the success counter,
    the files. *)
Definition help_step (w : world) (st : nat * nat * fsys) (url : str) : nat * nat * fsys :=
  let '(i, success, fs) := st in
  let '(ok, fs') := download w fs url (help_output_path i url) in
  (S i, if ok then S success else success, fs').

(** [main] over the list HELP_IMAGES: total attempted, successes, the
    failure count that the summary prints, and the files. *)
Definition help_images_main (w : world) (urls : list str) (fs : fsys)
  : nat * nat * nat * fsys :=
  let total := length urls in
  let '(_, success, fs') := foldl (help_step w) (O, O, fs) urls in
  (total, success, (total - success)%nat, fs').

(** Worlds to evaluate the definitions: every request answers 200 with the
    body B, no request is answered in time, or every request answers 404;
    every write succeeds. *)
Definition world_B : world := World (fun _ => Http 200 (U "B")) (fun _ _ => Written).
Definition world_down : world := World (fun _ => Timeout) (fun _ _ => Written).
Definition world_404 : world :=
  World (fun _ => Http 404 (U "Not Found")) (fun _ _ => Written).

(** ** download_screenshots.py: process_page *)

Definition IMAGE_EXTENSIONS : list str :=
  map U [".png"; ".jpg"; ".jpeg"; ".gif"; ".webp"; ".svg"]%string.

(** [os.path.splitext]: the extension starts at the last dot of the last
    component, unless only dots precede it there. *)
Definition splitext (p : str) : str * str :=
  let base := after_last 47 p in
  if mem 46 base then
    let ext := 46 :: after_last 46 base in
    let stem := take (length base - length ext) base in
    if forallb (isc 46) stem then (p, [])
    else (take (length p - length ext) p, ext)
  else (p, []).

(** The file name that [process_page] gives to an image URL: the sanitized
    name, a hash of the URL below 10000, the extension. *)
Definition screenshot_filename (rt : runtime) (img_url : str) : result str :=
  let! filename := sanitize_filename rt img_url in
  (* Add hash to avoid collisions *)
  let url_hash := (Z.abs (str_hash rt img_url) mod 10000)%Z in
  let '(name, ext) := splitext filename in
  let ext := if negb (nonempty ext) || negb (in_list ext IMAGE_EXTENSIONS)
             then U ".png" (* Default extension *) else ext in
  Ret (name ++ U "_" ++ dec (Z.to_N url_hash) ++ ext).

(** Reading a decimal numeral back. *)
Fixpoint chars_uint (s : str) : Decimal.uint :=
  match s with
  | [] => Decimal.Nil
  | c :: s' =>
      let u := chars_uint s' in
      if c =? 48 then Decimal.D0 u else if c =? 49 then Decimal.D1 u
      else if c =? 50 then Decimal.D2 u else if c =? 51 then Decimal.D3 u
      else if c =? 52 then Decimal.D4 u else if c =? 53 then Decimal.D5 u
      else if c =? 54 then Decimal.D6 u else if c =? 55 then Decimal.D7 u
      else if c =? 56 then Decimal.D8 u else Decimal.D9 u
  end.


(** A family of image URLs that differ in a query parameter only. *)
Definition sized_url (k : nat) : str :=
  U "https://cdn.sanity.io/images/a.png?w=" ++ dec (N.of_nat k).

(** Whether the sanitizer gives a URL the name a.png. *)
Definition named_a_png (rt : runtime) (url : str) : bool :=
  match sanitize_filename rt url with
  | Ret s => str_eqb s (U "a.png")
  | Raise _ => false
  end.

(** ** download_screenshots.py: is_image_url and process_page *)








(** ** download_images.py: main *)







(** ** The matcher: what a match consists of *)

Lemma close_group_Some it acc r g rest :
  close_group it acc r = Some (g, rest) ->
  exists g', r = Some (g', rest) /\ g = (if cap it then rev acc :: g' else g').
Proof.
  destruct r as [[g' r']|]; simpl; [|discriminate].
  intros H. injection H as <- <-. eauto.
Qed.

(** A successful quantified class took a run [a] of its characters, at least
    [l] of them, and the rest of the pattern matched what follows. *)
Lemma match_rep_sound it k s : forall l h acc g rest,
  match_rep it k l h acc s = Some (g, rest) ->
  exists a b g', s = a ++ b /\ forallb (cls it) a = true /\ (l <= length a)%nat
    /\ k b = Some (g', rest)
    /\ g = (if cap it then (rev acc ++ a) :: g' else g').
Proof.
  induction s as [|c s IH]; intros l h acc g rest; simpl.
  - destruct l; [|discriminate]. intros H.
    apply close_group_Some in H as (g' & Hk & ->).
    exists [], [], g'. repeat split; auto. now rewrite app_nil_r.
  - assert (Hstop : match l with
                    | O => close_group it acc (k (c :: s))
                    | S _ => None
                    end = Some (g, rest) ->
            exists a b g', c :: s = a ++ b /\ forallb (cls it) a = true
              /\ (l <= length a)%nat /\ k b = Some (g', rest)
              /\ g = (if cap it then (rev acc ++ a) :: g' else g')).
    { destruct l; [|discriminate]. intros H.
      apply close_group_Some in H as (g' & Hk & ->).
      exists [], (c :: s), g'. repeat split; auto. now rewrite app_nil_r. }
    assert (Hmore : cls it c = true ->
            match_rep it k (pred l) (option_map pred h) (c :: acc) s = Some (g, rest) ->
            exists a b g', c :: s = a ++ b /\ forallb (cls it) a = true
              /\ (l <= length a)%nat /\ k b = Some (g', rest)
              /\ g = (if cap it then (rev acc ++ a) :: g' else g')).
    { intros Hc H. apply IH in H as (a & b & g' & -> & Ha & Hl & Hk & ->).
      exists (c :: a), b, g'. simpl. rewrite Hc, Ha. repeat split; auto; [lia|].
      simpl. rewrite <- app_assoc. reflexivity. }
    destruct (cls it c) eqn:Hc; simpl; [|exact Hstop].
    destruct (room h); simpl; [|exact Hstop].
    destruct (greedy it).
    + destruct (match_rep it k (pred l) (option_map pred h) (c :: acc) s) as [r|] eqn:E.
      * intros H. injection H as ->. auto.
      * exact Hstop.
    + destruct (match l with O => close_group it acc (k (c :: s)) | S _ => None end)
        as [r|] eqn:E.
      * intros H. injection H as ->. auto.
      * auto.
Qed.

(** A match consumes a prefix [m] of the text: group 0 of the match. *)
Lemma match_items_prefix p : forall s g rest,
  match_items p s = Some (g, rest) -> exists m, s = m ++ rest.
Proof.
  induction p as [|it p IH]; intros s g rest; simpl.
  - intros H. injection H as <- <-. exists []. reflexivity.
  - intros H. apply match_rep_sound in H as (a & b & g' & -> & _ & _ & Hk & _).
    apply IH in Hk as [m ->]. exists (a ++ m). apply app_assoc.
Qed.

(** ** [re.sub]: unfolding and induction *)

Lemma sub_aux_skip p repl m : forall rest,
  rest <> [] -> sub_aux p repl (length m) (m ++ rest) = sub_aux p repl O rest.
Proof.
  induction m as [|c m IH]; intros rest Hr; simpl; auto.
Qed.

Lemma sub_aux_skip_all p repl m :
  sub_aux p repl (length m) m = sub_aux p repl O [].
Proof.
  induction m as [|c m IH]; simpl; auto.
Qed.

Lemma sub_aux_drop p repl m rest :
  sub_aux p repl (length m) (m ++ rest) = sub_aux p repl O rest.
Proof.
  destruct rest as [|c r].
  - rewrite app_nil_r. apply sub_aux_skip_all.
  - apply sub_aux_skip. discriminate.
Qed.

Lemma re_sub_nil p repl :
  re_sub p repl [] =
  match match_items p [] with Some (g, _) => expand repl g | None => [] end.
Proof. reflexivity. Qed.

(** No match at the head: the character is copied. *)
Lemma re_sub_miss p repl c s :
  match_items p (c :: s) = None -> re_sub p repl (c :: s) = c :: re_sub p repl s.
Proof. unfold re_sub. simpl. intros ->. reflexivity. Qed.

(** A non-empty match [m] at the head: the template, then the text after [m]. *)
Lemma re_sub_hit p repl s g m rest :
  match_items p s = Some (g, rest) -> s = m ++ rest -> m <> [] ->
  re_sub p repl s = expand repl g ++ re_sub p repl rest.
Proof.
  intros Hm -> Hne. unfold re_sub.
  destruct m as [|c m]; [congruence|]. simpl app in *.
  cbn [sub_aux]. rewrite Hm.
  replace (length (c :: m ++ rest) - length rest)%nat with (S (length m))
    by (simpl; rewrite length_app; lia).
  f_equal. apply sub_aux_drop.
Qed.

(** Induction along the scan of [re.sub], for a pattern that matches no
    empty text. *)
Lemma re_sub_ind p repl (P : str -> str -> Prop) :
  (forall s g, match_items p s <> Some (g, s)) ->
  P [] [] ->
  (forall c s t, match_items p (c :: s) = None -> P s t -> P (c :: s) (c :: t)) ->
  (forall s g m rest t, match_items p s = Some (g, rest) -> s = m ++ rest ->
     m <> [] -> P rest t -> P s (expand repl g ++ t)) ->
  forall s, P s (re_sub p repl s).
Proof.
  intros Hne Hnil Hmiss Hhit s.
  remember (length s) as n eqn:Hn. revert s Hn.
  induction n as [n IH] using lt_wf_ind. intros s Hn.
  destruct s as [|c s].
  - rewrite re_sub_nil. destruct (match_items p []) as [[g r]|] eqn:E; [|exact Hnil].
    destruct (match_items_prefix _ _ _ _ E) as [m Hm].
    symmetry in Hm. apply app_eq_nil in Hm as [-> ->]. destruct (Hne _ _ E).
  - destruct (match_items p (c :: s)) as [[g rest]|] eqn:E.
    + destruct (match_items_prefix _ _ _ _ E) as [m Hm].
      assert (m <> []) as Hm0.
      { intros ->. simpl in Hm. subst rest. exact (Hne _ _ E). }
      rewrite (re_sub_hit _ _ _ _ _ _ E Hm Hm0).
      apply (Hhit _ _ m rest); auto.
      apply (IH (length rest)); auto.
      subst n. rewrite Hm, length_app. destruct m; [congruence|simpl; lia].
    + rewrite re_sub_miss by exact E. apply Hmiss; auto.
      apply (IH (length s)); auto. subst n. simpl. lia.
Qed.
Example md_h1 :
  html_to_markdown (U "<h1>Title</h1><p>Hello <strong>world</strong></p>")
  = U "# TitleHello **world**".
Proof. vm_compute. reflexivity. Qed.

(** ** Literal characters and greedy runs *)

Lemma close_group_nocap it acc r : cap it = false -> close_group it acc r = r.
Proof. intros H. destruct r as [[g rest]|]; simpl; rewrite ?H; reflexivity. Qed.

Lemma match_rep_full it k acc s :
  match_rep it k 0 (Some 0%nat) acc s = close_group it acc (k s).
Proof. destruct s; simpl; rewrite ?andb_false_r; reflexivity. Qed.

(** A literal character in front of a pattern. *)
Lemma match_chr c0 p s :
  match_items (chr c0 :: p) s =
  match s with
  | c :: s' => if c0 =? c then match_items p s' else None
  | [] => None
  end.
Proof.
  destruct s as [|c s]; [reflexivity|].
  cbn [match_items chr one lo hi].
  set (k := match_items p).
  assert (E : match_rep (one (N.eqb c0)) k 1 (Some 1%nat) [] (c :: s) =
              if (c0 =? c) && true
              then match match_rep (one (N.eqb c0)) k 0 (Some 0%nat) [c] s with
                   | Some r => Some r
                   | None => None
                   end
              else None) by reflexivity.
  unfold chr. rewrite E. clear E.
  rewrite andb_true_r, match_rep_full, close_group_nocap by reflexivity.
  subst k.
  destruct (c0 =? c); [|reflexivity]. destruct (match_items p s); reflexivity.
Qed.

Lemma run_after f s : s = run f s ++ after f s.
Proof. induction s as [|c s IH]; simpl; [|destruct (f c); simpl; congruence]; auto. Qed.


(** A greedy, unbounded, uncaptured class whose continuation cannot start
    with a character of the class takes the whole run. *)
Lemma match_rep_greedy_blocked it k :
  greedy it = true -> cap it = false ->
  (forall c s, cls it c = true -> k (c :: s) = None) ->
  forall s l acc,
    match_rep it k l None acc s =
    if (l <=? length (run (cls it) s))%nat then k (after (cls it) s) else None.
Proof.
  intros Hg Hc Hk. induction s as [|c s IH]; intros l acc; simpl.
  - destruct l; simpl; [apply close_group_nocap; auto|reflexivity].
  - destruct (cls it c) eqn:E; simpl.
    + rewrite Hg, IH.
      replace (l <=? S (length (run (cls it) s)))%nat
        with (pred l <=? length (run (cls it) s))%nat
        by (destruct l; simpl; reflexivity).
      destruct (pred l <=? length (run (cls it) s))%nat.
      * destruct (k (after (cls it) s)); [reflexivity|].
        destruct l; [|reflexivity]. rewrite close_group_nocap, Hk; auto.
      * destruct l; [|reflexivity]. rewrite close_group_nocap, Hk; auto.
    + destruct l; simpl; [apply close_group_nocap; auto|reflexivity].
Qed.

Lemma any_tag_re_eq : any_tag_re = [chr LT; plus (notc GT); chr GT].
Proof. reflexivity. Qed.

(** When the remaining-tag pattern matches. *)
Lemma any_tag_match c s :
  match_items any_tag_re (c :: s) =
  if (c =? LT) && (1 <=? length (run (notc GT) s))%nat then
    match after (notc GT) s with
    | d :: rest => Some ([], rest)
    | [] => None
    end
  else None.
Proof.
  rewrite any_tag_re_eq, match_chr.
  rewrite (N.eqb_sym c LT). destruct (LT =? c); [rewrite andb_true_l|reflexivity].
  cbn [match_items].
  rewrite (match_rep_greedy_blocked (plus (notc GT)) (match_items [chr GT])); auto.
  - cbn [cls plus lo].
    destruct (1 <=? length (run (notc GT) s))%nat; [|reflexivity].
    rewrite match_chr.
    pose proof (run_after (notc GT) s) as Hs.
    destruct (after (notc GT) s) as [|d rest] eqn:E; [reflexivity|].
    assert (notc GT d = false) as Hd.
    { clear Hs. revert E. induction s as [|x s IH]; simpl; [discriminate|].
      destruct (notc GT x) eqn:Ex; auto. intros H. injection H as <- <-. exact Ex. }
    unfold notc in Hd. apply negb_false_iff, N.eqb_eq in Hd. subst d. reflexivity.
  - intros d r Hd. rewrite match_chr. cbn [cls plus] in Hd. unfold notc in Hd.
    apply negb_true_iff in Hd. rewrite N.eqb_sym, Hd. reflexivity.
Qed.
(** ** Tag stripping leaves no complete tag *)

Lemma after_nil_no f s : after f s = [] -> forallb f s = true.
Proof.
  induction s as [|c s IH]; simpl; auto.
  destruct (f c); [auto|discriminate].
Qed.

Lemma no_gt_forallb s : forallb (notc GT) s = true -> GT ∉ s.
Proof.
  induction s as [|c s IH]; simpl; intros H.
  - apply not_elem_of_nil.
  - apply andb_true_iff in H as [Hc Hs]. apply not_elem_of_cons. split; auto.
    unfold notc in Hc. apply negb_true_iff, N.eqb_neq in Hc. congruence.
Qed.

Lemma any_tag_nonempty s g : match_items any_tag_re s <> Some (g, s).
Proof.
  intros H. destruct (match_items_prefix _ _ _ _ H) as [m Hm].
  destruct s as [|c s]; [discriminate H|].
  rewrite any_tag_match in H.
  destruct ((c =? LT) && _); [|discriminate].
  destruct (after (notc GT) s) as [|d rest] eqn:E; [discriminate|].
  injection H as _ Hr.
  pose proof (run_after (notc GT) s) as Hs. rewrite E in Hs.
  apply (f_equal length) in Hs. rewrite length_app in Hs. subst rest. simpl in Hs. lia.
Qed.

Lemma strip_tags_notag s :
  let t := re_sub any_tag_re [] s in
  notag t /\ (GT ∉ s -> GT ∉ t) /\ (forall s', s = GT :: s' -> exists t', t = GT :: t').
Proof.
  cbv zeta.
  apply (re_sub_ind any_tag_re []
    (fun s t => notag t /\ (GT ∉ s -> GT ∉ t)
                /\ (forall s', s = GT :: s' -> exists t', t = GT :: t'))).
  - intros. apply any_tag_nonempty.
  - repeat split; auto. intros s' H; discriminate.
  - intros c r t Hm (Ht & Hgt & Hhd). repeat split; auto.
    + intros ->. rewrite any_tag_match in Hm. rewrite N.eqb_refl, andb_true_l in Hm.
      destruct (run (notc GT) r) as [|x xs] eqn:Er.
      * destruct r as [|d r].
        { right. apply Hgt, not_elem_of_nil. }
        simpl in Er. destruct (notc GT d) eqn:Ed; [discriminate|].
        unfold notc in Ed. apply negb_false_iff, N.eqb_eq in Ed. subst d.
        left. destruct (Hhd r eq_refl) as [t' ->]. eauto.
      * simpl in Hm. destruct (after (notc GT) r) eqn:Ea; [|discriminate].
        right. apply Hgt, no_gt_forallb, after_nil_no with (1 := Ea).
    + intros H. apply not_elem_of_cons in H as [H1 H2].
      apply not_elem_of_cons. auto.
    + intros s' H. injection H as -> ->. eauto.
  - intros r g m rest t Hm Hs Hne (Ht & Hgt & Hhd). simpl. repeat split; auto.
    + intros H. apply Hgt. subst r. intros Hin. apply H, elem_of_app. auto.
    + intros s' ->. rewrite any_tag_match in Hm. discriminate Hm.
Qed.

(** Deleting characters other than LT and GT creates no tag. *)
Lemma thin_no_gt s t : thin s t -> GT ∉ s -> GT ∉ t.
Proof.
  induction 1 as [|c s t H IH|c s t H1 H2 H IH]; intros Hs; auto.
  - apply not_elem_of_cons in Hs as [? ?]. apply not_elem_of_cons. auto.
  - apply not_elem_of_cons in Hs as [? ?]. auto.
Qed.

Lemma thin_head_gt s t s' : thin s t -> s = GT :: s' -> exists t', t = GT :: t'.
Proof.
  destruct 1 as [|c s t H|c s t H1 H2 H]; intros E; try discriminate.
  - injection E as -> ->. eauto.
  - injection E as -> ->. congruence.
Qed.

Lemma thin_notag s t : thin s t -> notag s -> notag t.
Proof.
  induction 1 as [|c s t H IH|c s t H1 H2 H IH]; simpl; auto.
  - intros [Hc Hs]. split; auto.
    intros E. destruct (Hc E) as [[u Hu]|Hn].
    + left. eapply thin_head_gt; eauto.
    + right. eapply thin_no_gt; eauto.
  - intros [_ Hs]. auto.
Qed.

Lemma thin_refl s : thin s s.
Proof. induction s; constructor; auto. Qed.

Lemma thin_app a b c d : thin a b -> thin c d -> thin (a ++ c) (b ++ d).
Proof. induction 1; simpl; intros; auto; constructor; auto. Qed.

Lemma thin_rev s t : thin s t -> thin (rev s) (rev t).
Proof.
  induction 1 as [|c s t H IH|c s t H1 H2 H IH]; simpl.
  - constructor.
  - apply thin_app; auto. apply thin_refl.
  - rewrite <- (app_nil_r (rev t)). apply thin_app; auto.
    constructor; auto. constructor.
Qed.

Lemma isspace_not_bracket c : isspace c = true -> c <> LT /\ c <> GT.
Proof. intros H. split; intros ->; discriminate H. Qed.

Lemma thin_lstrip s : thin s (lstrip s).
Proof.
  induction s as [|c s IH]; simpl; [constructor|].
  destruct (isspace c) eqn:E; [|apply thin_refl].
  apply isspace_not_bracket in E as [? ?]. constructor; auto.
Qed.

Lemma thin_trans a b c : thin a b -> thin b c -> thin a c.
Proof.
  intros H. revert c. induction H as [|x s t H IH|x s t H1 H2 H IH]; intros c0 Hc; auto.
  - inversion Hc; subst; constructor; auto.
  - constructor; auto.
Qed.

Lemma thin_strip s : thin s (strip s).
Proof.
  unfold strip, rstrip. eapply thin_trans; [apply thin_lstrip|].
  rewrite <- (rev_involutive (lstrip s)) at 1.
  apply thin_rev, thin_lstrip.
Qed.

Lemma atleast_sound k f s g rest :
  match_items [atleast k f] s = Some (g, rest) ->
  exists a, s = a ++ rest /\ forallb f a = true /\ (k <= length a)%nat.
Proof.
  intros H. cbn [match_items] in H.
  apply match_rep_sound in H as (a & b & g' & -> & Ha & Hl & Hk & _).
  injection Hk as _ ->. eauto.
Qed.

Lemma thin_replicate b j n t u :
  b <> LT -> b <> GT -> (j <= n)%nat -> thin t u ->
  thin (replicate n b ++ t) (replicate j b ++ u).
Proof.
  intros H1 H2. revert j. induction n as [|n IH]; intros j Hj Ht.
  - replace j with O by lia. exact Ht.
  - destruct j as [|j]; simpl.
    + apply thin_drop; auto. apply (IH O); auto. lia.
    + apply thin_keep. apply IH; auto. lia.
Qed.

Lemma forallb_isc_replicate b a : forallb (isc b) a = true -> a = replicate (length a) b.
Proof.
  induction a as [|c a IH]; simpl; auto.
  intros H. apply andb_true_iff in H as [Hc Ha].
  unfold isc in Hc. apply N.eqb_eq in Hc. subst c. f_equal. auto.
Qed.

(** Collapsing runs of one blank character [b] (at least [k] of them) to
    [j] copies only deletes blanks. *)
Lemma thin_collapse b j k s :
  b <> LT -> b <> GT -> (j <= k)%nat -> (1 <= k)%nat ->
  thin s (re_sub [atleast k (isc b)] [Lit (replicate j b)] s).
Proof.
  intros H1 H2 Hj Hk.
  apply (re_sub_ind [atleast k (isc b)] [Lit (replicate j b)] thin).
  - intros r g H. apply atleast_sound in H as (a & Ha & _ & Hl).
    apply (f_equal length) in Ha. rewrite length_app in Ha. lia.
  - constructor.
  - intros. constructor. auto.
  - intros r g m rest t Hm Hs Hne Ht.
    apply atleast_sound in Hm as (a & Ha & Hall & Hl).
    rewrite Ha. simpl. rewrite app_nil_r.
    rewrite (forallb_isc_replicate _ _ Hall).
    apply thin_replicate; auto. lia.
Qed.

(** A string without complete tag has no match of the tag pattern. *)
Lemma notag_no_match s : notag s -> re_search any_tag_re s = None.
Proof.
  induction s as [|c s IH]; [reflexivity|].
  intros [Hc Hs]. cbn [re_search]. rewrite IH by exact Hs.
  rewrite any_tag_match.
  destruct (c =? LT) eqn:E; [|reflexivity]. apply N.eqb_eq in E.
  destruct (Hc E) as [[t ->]|Hn]; [reflexivity|].
  rewrite andb_true_l. destruct (1 <=? _)%nat; [|reflexivity].
  destruct (after (notc GT) s) as [|d rest] eqn:Ea; [reflexivity|].
  exfalso. apply Hn. rewrite (run_after (notc GT) s), Ea.
  apply elem_of_app. right.
  assert (d = GT) as ->; [|apply elem_of_cons; auto].
  clear -Ea. induction s as [|x s IH]; simpl in Ea; [discriminate|].
  destruct (notc GT x) eqn:Ex; auto. injection Ea as -> ->.
  unfold notc in Ex. apply negb_false_iff, N.eqb_eq in Ex. exact Ex.
Qed.

(** C3 (amended): for every input, the converted text holds no complete
    tag, that is no LT followed by one or more characters other than GT and
    then GT: the pattern that the converter strips finds nothing in it. *)
Theorem html_to_markdown_no_tag html :
  re_search any_tag_re (html_to_markdown html) = None.
Proof.
  apply notag_no_match. unfold html_to_markdown.
  eapply thin_notag; [apply thin_strip|].
  eapply thin_notag.
  { apply (thin_collapse 32 1 2); [discriminate|discriminate|lia|lia]. }
  eapply thin_notag.
  { apply (thin_collapse NL 2 3); [discriminate|discriminate|lia|lia]. }
  apply strip_tags_notag.
Qed.

(** C3 (as stated) fails: a link whose address holds GT uses only the
    vocabulary of the converter, and GT is in the converted text. *)
Lemma html_to_markdown_keeps_gt :
  html_to_markdown (U "<a href=" ++ [DQ] ++ U "a>b" ++ [DQ] ++ U ">t</a>")
    = U "[t](a>b)"
  /\ GT ∈ html_to_markdown (U "<a href=" ++ [DQ] ++ U "a>b" ++ [DQ] ++ U ">t</a>").
Proof.
  assert (html_to_markdown (U "<a href=" ++ [DQ] ++ U "a>b" ++ [DQ] ++ U ">t</a>")
          = U "[t](a>b)") as E by (vm_compute; reflexivity).
  split; [exact E|]. rewrite E. vm_compute. repeat constructor.
Qed.
(** ** The sanitizer *)

(** One character of a class in front of a pattern. *)
Lemma match_one f p s :
  match_items (one f :: p) s =
  match s with
  | c :: s' => if f c then match_items p s' else None
  | [] => None
  end.
Proof.
  destruct s as [|c s]; [reflexivity|].
  cbn [match_items one lo hi].
  set (k := match_items p).
  assert (E : match_rep (one f) k 1 (Some 1%nat) [] (c :: s) =
              if f c && true
              then match match_rep (one f) k 0 (Some 0%nat) [c] s with
                   | Some r => Some r
                   | None => None
                   end
              else None) by reflexivity.
  fold (one f). rewrite E. clear E.
  rewrite andb_true_r, match_rep_full, close_group_nocap by reflexivity.
  subst k. destruct (f c); [|reflexivity]. destruct (match_items p s); reflexivity.
Qed.

(** Replacing each character of a class by a fixed text. *)
Lemma re_sub_one f r s :
  re_sub [one f] [Lit r] s = flat_map (fun c => if f c then r else [c]) s.
Proof.
  induction s as [|c s IH]; [reflexivity|].
  pose proof (match_one f [] (c :: s)) as E.
  cbv iota in E. change (match_items [] s) with (Some (@nil str, s)) in E.
  simpl flat_map. destruct (f c).
  - rewrite (re_sub_hit _ _ _ _ [c] s E); [|reflexivity|discriminate].
    simpl. rewrite app_nil_r, IH. reflexivity.
  - rewrite re_sub_miss by exact E. rewrite IH. reflexivity.
Qed.

Lemma word_ascii_safe rt c :
  is_ascii c = true -> unsafe rt c = false -> safe_char c = true.
Proof.
  unfold unsafe, word, safe_char. intros -> H.
  apply negb_false_iff in H.
  destruct (is_upper c), (is_lower c), (is_digit c), (c =? 95), (c =? 45), (c =? 46);
    simpl in *; congruence.
Qed.

Lemma sanitized_chars rt s :
  Forall (fun c => unsafe rt c = false)
    (flat_map (fun c => if unsafe rt c then U "_" else [c]) s).
Proof.
  induction s as [|c s IH]; simpl; [constructor|].
  destruct (unsafe rt c) eqn:E; simpl; constructor; auto.
Qed.

Lemma image_chars rt : Forall (fun c => unsafe rt c = false) (U "image").
Proof. repeat constructor. Qed.

(** What [sanitize_filename] returns, in terms of the parsed path. *)
Lemma sanitize_filename_eq rt url :
  sanitize_filename rt url =
  let! parsed := urlparse rt url [] in
  let cleaned := flat_map (fun c => if unsafe rt c then U "_" else [c])
                   (hd [] (split_on 63 (basename (path parsed)))) in
  Ret (match cleaned with [] => U "image" | _ => cleaned end).
Proof.
  unfold sanitize_filename. destruct (urlparse rt url []); simpl; [|reflexivity].
  rewrite re_sub_one. reflexivity.
Qed.

Lemma sanitize_filename_safe rt url s :
  sanitize_filename rt url = Ret s -> Forall (fun c => unsafe rt c = false) s.
Proof.
  rewrite sanitize_filename_eq. destruct (urlparse rt url []) as [p|]; simpl; [|discriminate].
  intros H. injection H as <-.
  pose proof (sanitized_chars rt (hd [] (split_on 63 (basename (path p))))) as Hs.
  destruct (flat_map _ _); [apply image_chars|exact Hs].
Qed.
(** *** Parsing a name that is already clean *)

Lemma run_id f s : forallb f s = true -> run f s = s /\ after f s = [].
Proof.
  induction s as [|c s IH]; simpl; [auto|].
  intros H. apply andb_true_iff in H as [-> Hs]. destruct (IH Hs) as [-> ->]. auto.
Qed.

Lemma after_head f c s : f c = false -> after f (c :: s) = c :: s.
Proof. simpl. intros ->. reflexivity. Qed.

Lemma filter_id (f : N -> bool) s : forallb f s = true -> filter f s = s.
Proof.
  induction s as [|c s IH]; simpl; [auto|].
  intros H. apply andb_true_iff in H as [Hc Hs].
  rewrite filter_cons. destruct (decide (f c)) as [_|n]; [f_equal; auto|].
  rewrite Hc in n. destruct n. exact I.
Qed.

Lemma split_on_none c s : forallb (notc c) s = true -> split_on c s = [s].
Proof.
  induction s as [|x s IH]; simpl; [auto|].
  intros H. apply andb_true_iff in H as [Hx Hs].
  unfold notc in Hx. apply negb_true_iff in Hx. rewrite Hx, IH by exact Hs. reflexivity.
Qed.

Lemma after_last_none c s : forallb (notc c) s = true -> after_last c s = s.
Proof.
  intros H. unfold after_last.
  assert (forallb (notc c) (rev s) = true) as Hr.
  { apply forallb_forall. intros x Hx. apply in_rev in Hx.
    eapply forallb_forall in H; eauto. }
  destruct (run_id _ _ Hr) as [-> _]. apply rev_involutive.
Qed.

Lemma safe_char_spec c :
  safe_char c = true ->
  (65 <= c <= 90) \/ (97 <= c <= 122) \/ (48 <= c <= 57) \/ c = 95 \/ c = 46 \/ c = 45.
Proof.
  unfold safe_char, is_upper, is_lower, is_digit.
  rewrite !orb_true_iff, !andb_true_iff, !N.leb_le, !N.eqb_eq. tauto.
Qed.

(** A character that the sanitizer keeps is no delimiter of a URL, no
    control character and no space. *)
Lemma kept_not_special rt c :
  unsafe rt c = false ->
  (c <=? 32) = false /\ mem c [9; 13; 10] = false
  /\ notc 58 c = true /\ notc 47 c = true /\ notc 35 c = true
  /\ notc 63 c = true /\ notc 59 c = true.
Proof.
  intros H.
  assert (c <> 9 /\ c <> 13 /\ c <> 10 /\ c <> 58 /\ c <> 47 /\ c <> 35
          /\ c <> 63 /\ c <> 59 /\ 32 < c) as Hc.
  { destruct (is_ascii c) eqn:Ha.
    - pose proof (safe_char_spec c (word_ascii_safe rt c Ha H)). lia.
    - unfold is_ascii in Ha. apply N.ltb_ge in Ha. lia. }
  destruct Hc as (H9 & H13 & H10 & H58 & H47 & H35 & H63 & H59 & H32).
  unfold notc, mem, existsb.
  apply N.eqb_neq in H9, H13, H10, H58, H47, H35, H63, H59.
  apply N.leb_gt in H32.
  rewrite H9, H13, H10, H58, H47, H35, H63, H59, H32. repeat split.
Qed.

Lemma kept_forallb rt s (f : N -> bool) :
  (forall c, unsafe rt c = false -> f c = true) ->
  Forall (fun c => unsafe rt c = false) s -> forallb f s = true.
Proof.
  intros Hf Hs. apply forallb_forall. intros c Hc.
  rewrite Forall_forall in Hs. apply Hf, Hs. apply list_elem_of_In. exact Hc.
Qed.

(** A non-empty name of kept characters parses as a bare path. *)
Lemma urlparse_clean rt s :
  Forall (fun c => unsafe rt c = false) s ->
  urlparse rt s [] = Ret (Parsed [] [] s [] [] []).
Proof.
  intros Hs.
  assert (H58 : forallb (notc 58) s = true)
    by (apply (kept_forallb rt); auto; intros c Hc; apply (kept_not_special rt c Hc)).
  assert (H35 : forallb (notc 35) s = true)
    by (apply (kept_forallb rt); auto; intros c Hc; apply (kept_not_special rt c Hc)).
  assert (H63 : forallb (notc 63) s = true)
    by (apply (kept_forallb rt); auto; intros c Hc; apply (kept_not_special rt c Hc)).
  assert (H59 : forallb (notc 59) s = true)
    by (apply (kept_forallb rt); auto; intros c Hc; apply (kept_not_special rt c Hc)).
  assert (Hf : forallb (fun c => negb (mem c [9; 13; 10])) s = true).
  { apply (kept_forallb rt); auto. intros c Hc.
    destruct (kept_not_special rt c Hc) as (_ & -> & _). reflexivity. }
  assert (Hl : after (fun c => c <=? 32) s = s).
  { destruct s as [|c s]; [reflexivity|]. apply after_head.
    apply Forall_cons in Hs as [Hc _]. apply (kept_not_special rt c Hc). }
  assert (Hsl : startswith s (U "//") = false).
  { destruct s as [|c s]; [reflexivity|].
    apply Forall_cons in Hs as [Hc _].
    destruct (kept_not_special rt c Hc) as (_ & _ & _ & H47 & _).
    unfold notc in H47. apply negb_true_iff in H47.
    change (startswith (c :: s) (U "//")) with ((c =? 47) && startswith s (U "/")).
    rewrite H47. reflexivity. }
  assert (Hm : mem 59 s = false).
  { unfold mem. apply not_true_is_false. intros H.
    apply existsb_exists in H as (x & Hx & Ex). apply N.eqb_eq in Ex. subst x.
    eapply forallb_forall in H59; eauto. discriminate H59. }
  unfold urlparse, urlsplit. rewrite Hl, (filter_id _ _ Hf).
  unfold cut.
  destruct (run_id _ _ H58) as [-> ->].
  simpl filter. simpl rev. simpl after at 1.
  destruct s as [|c s].
  - reflexivity.
  - cbv iota beta. rewrite Hsl. cbv iota beta.
    destruct (run_id _ _ H35) as [-> ->]. destruct (run_id _ _ H63) as [-> ->].
    remember (c :: s) as u eqn:Eu.
    change (mem 91 []) with false. change (mem 93 []) with false.
    change (forallb is_ascii []) with true.
    cbn [andb orb negb bind]. rewrite Hm, andb_false_r. reflexivity.
Qed.
Lemma flat_map_kept rt s :
  Forall (fun c => unsafe rt c = false) s ->
  flat_map (fun c => if unsafe rt c then U "_" else [c]) s = s.
Proof.
  induction 1 as [|c s Hc Hs IH]; [reflexivity|].
  cbn [flat_map]. rewrite Hc, IH. reflexivity.
Qed.

Lemma sanitize_filename_clean rt s :
  s <> [] -> Forall (fun c => unsafe rt c = false) s -> sanitize_filename rt s = Ret s.
Proof.
  intros Hne Hs. rewrite sanitize_filename_eq, (urlparse_clean rt s Hs). simpl.
  unfold basename.
  rewrite after_last_none
    by (apply (kept_forallb rt); auto; intros c Hc; apply (kept_not_special rt c Hc)).
  rewrite split_on_none
    by (apply (kept_forallb rt); auto; intros c Hc; apply (kept_not_special rt c Hc)).
  simpl. rewrite flat_map_kept by exact Hs. destruct s; congruence.
Qed.

Lemma sanitize_filename_not_nil rt url s : sanitize_filename rt url = Ret s -> s <> [].
Proof.
  rewrite sanitize_filename_eq. destruct (urlparse rt url []); simpl; [|discriminate].
  intros H. injection H as <-. destruct (flat_map _ _); discriminate.
Qed.

(** C5: the sanitizer is idempotent: sanitizing the name it returned gives
    that name again (and an input that the URL parser rejects is rejected on
    both sides). *)
Theorem sanitize_filename_idempotent (rt : runtime) (x : str) :
  (let! s := sanitize_filename rt x in sanitize_filename rt s) = sanitize_filename rt x.
Proof.
  destruct (sanitize_filename rt x) as [s|e] eqn:E; simpl; [|reflexivity].
  apply sanitize_filename_clean.
  - eapply sanitize_filename_not_nil; eauto.
  - eapply sanitize_filename_safe; eauto.
Qed.

(** C10 (amended): for every input that the URL parser accepts, the
    sanitizer returns a non-empty name, and the name is image when the last
    path segment is empty. *)
Theorem sanitize_filename_nonempty (rt : runtime) (url : str) (p : parsed) :
  urlparse rt url [] = Ret p ->
  exists s, sanitize_filename rt url = Ret s /\ s <> []
    /\ (basename (path p) = [] -> s = U "image").
Proof.
  intros Hp. rewrite sanitize_filename_eq, Hp. simpl.
  eexists. split; [reflexivity|]. split.
  - destruct (flat_map _ _); discriminate.
  - intros ->. reflexivity.
Qed.

Lemma sanitize_filename_nonempty_witness :
  exists s, sanitize_filename rt_eval (U "https://frame.io/features/") = Ret s /\ s <> []
    /\ (basename (U "/features/") = [] -> s = U "image").
Proof.
  apply (sanitize_filename_nonempty rt_eval (U "https://frame.io/features/")
           (Parsed (U "https") (U "frame.io") (U "/features/") [] [] [])).
  vm_compute. reflexivity.
Defined.

(** C10 (as stated) fails: a URL with an unbalanced bracket in its network
    location makes the URL parser raise ValueError, and no name is returned. *)
Lemma sanitize_filename_raises :
  sanitize_filename rt_eval (U "http://[") = Raise ValueError.
Proof. vm_compute. reflexivity. Qed.

(** *** The characters of the parsed path come from the URL *)

Lemma Forall_filter_bool (P : N -> Prop) (f : N -> bool) s :
  Forall P s -> Forall P (filter f s).
Proof.
  intros H. apply Forall_forall. intros x Hx.
  apply list_elem_of_filter in Hx as [_ Hx]. rewrite Forall_forall in H. auto.
Qed.

Lemma Forall_run (P : N -> Prop) f s : Forall P s -> Forall P (run f s).
Proof. induction 1; simpl; [constructor|]. destruct (f x); constructor; auto. Qed.

Lemma Forall_after (P : N -> Prop) f s : Forall P s -> Forall P (after f s).
Proof. induction 1; simpl; [constructor|]. destruct (f x); [auto|constructor; auto]. Qed.

Lemma Forall_after_last (P : N -> Prop) c s : Forall P s -> Forall P (after_last c s).
Proof. intros H. unfold after_last. apply Forall_rev, Forall_run, Forall_rev, H. Qed.

Lemma Forall_cut (P : N -> Prop) c s :
  Forall P s ->
  Forall P (fst (cut c s)) /\ (forall r, snd (cut c s) = Some r -> Forall P r).
Proof.
  intros H. unfold cut. simpl. split; [apply Forall_run, H|].
  intros r. pose proof (Forall_after P (notc c) s H) as Ha.
  destruct (after (notc c) s); [discriminate|].
  intros E. injection E as <-. apply Forall_cons in Ha. tauto.
Qed.

Lemma Forall_split_head (P : N -> Prop) c s : Forall P s -> Forall P (hd [] (split_on c s)).
Proof.
  induction 1 as [|x s Hx Hs IH]; simpl; [constructor|].
  destruct (x =? c); simpl; [constructor|].
  destruct (split_on c s); simpl in *; constructor; auto.
Qed.

Lemma urlsplit_path (P : N -> Prop) rt url d sch nl pth q frag :
  Forall P url -> urlsplit rt url d = Ret (sch, nl, pth, q, frag) -> Forall P pth.
Proof.
  intros H. unfold urlsplit.
  set (u1 := filter _ (after _ url)).
  assert (Forall P u1) as H1 by (apply Forall_filter_bool, Forall_after, H).
  clearbody u1. set (ds := filter _ _). clearbody ds.
  destruct (Forall_cut P 58 u1 H1) as [Ha Hb].
  destruct (cut 58 u1) as [pre rest]. simpl in Ha, Hb.
  set (su := match pre with
             | [] => (ds, u1)
             | c :: pre0 => _
             end).
  assert (Forall P (snd su)) as H2.
  { subst su. destruct pre as [|c pre]; [exact H1|].
    destruct rest as [r|]; [|exact H1].
    destruct (_ && _); simpl; auto. }
  destruct su as [sch' u2]. simpl in H2.
  set (nu := if startswith u2 (U "//") then _ else _).
  assert (Forall P (snd nu)) as H3.
  { subst nu. destruct (startswith u2 (U "//")); simpl; auto.
    apply Forall_after, Forall_drop, H2. }
  destruct nu as [nl' u3]. simpl in H3.
  destruct (_ || _); [discriminate|].
  destruct (Forall_cut P 35 u3 H3) as [H4 _].
  destruct (cut 35 u3) as [u4 [f|]]; simpl in H4.
  - destruct (Forall_cut P 63 u4 H4) as [H5 _].
    destruct (cut 63 u4) as [u5 [q'|]]; simpl in H5;
      destruct (_ || _); try discriminate; intros E; injection E as <- <- <- <- <-; auto.
  - destruct (Forall_cut P 63 u4 H4) as [H5 _].
    destruct (cut 63 u4) as [u5 [q'|]]; simpl in H5;
      destruct (_ || _); try discriminate; intros E; injection E as <- <- <- <- <-; auto.
Qed.

Lemma urlparse_path (P : N -> Prop) rt url d p :
  Forall P url -> urlparse rt url d = Ret p -> Forall P (path p).
Proof.
  intros H. unfold urlparse.
  destruct (urlsplit rt url d) as [[[[[sch nl] pth] q] frag]|e] eqn:E; simpl; [|discriminate].
  pose proof (urlsplit_path P _ _ _ _ _ _ _ _ H E) as Hp.
  destruct (_ && _).
  - unfold splitparams.
    destruct (Forall_cut P 59 (after_last 47 pth) (Forall_after_last P 47 pth Hp)) as [Ha _].
    destruct (cut 59 (after_last 47 pth)) as [a [b|]]; simpl in Ha;
      intros E'; injection E' as <-; simpl; auto.
    apply Forall_app. split; auto. apply Forall_take, Hp.
  - intros E'. injection E' as <-. exact Hp.
Qed.

Lemma flat_map_replace (f : N -> bool) (s : str) :
  flat_map (fun c => if f c then U "_" else [c]) s
  = map (fun c => if f c then 95 else c) s.
Proof. induction s as [|c s IH]; [reflexivity|]. simpl. rewrite IH. destruct (f c); reflexivity. Qed.

(** C8 (amended): the sanitizer returns the base name of the path of the
    URL (its last component, up to a question mark) with each character that
    is neither a word character of the regular-expression engine (a letter or
    digit of Unicode or the underscore), nor a hyphen, nor a dot, replaced by
    an underscore, position by position; or the name image when that is empty.
    So every character of the result is a word character, a hyphen or a dot;
    its ASCII characters lie in the safe set; and for a URL of ASCII
    characters the whole name lies in the safe set. *)
Theorem sanitize_filename_chars (rt : runtime) (url s : str) :
  sanitize_filename rt url = Ret s ->
  (exists parsed,
     urlparse rt url [] = Ret parsed
     /\ s = match map (fun c => if word rt c || (c =? 45) || (c =? 46) then c else 95)
                    (hd [] (split_on 63 (basename (path parsed)))) with
            | [] => U "image"
            | name => name
            end)
  /\ Forall (fun c => (word rt c || (c =? 45) || (c =? 46)) = true
                      /\ (is_ascii c = true -> safe_char c = true)) s
  /\ (forallb is_ascii url = true -> forallb safe_char s = true).
Proof.
  intros H. pose proof (sanitize_filename_safe rt url s H) as Hs. split; [|split].
  - rewrite sanitize_filename_eq in H.
    destruct (urlparse rt url []) as [p|] eqn:Ep; simpl in H; [|discriminate].
    injection H as <-. exists p. split; [reflexivity|].
    rewrite flat_map_replace.
    rewrite (map_ext _ (fun c => if word rt c || (c =? 45) || (c =? 46) then c else 95))
      by (intros c; unfold unsafe; destruct (word rt c || (c =? 45) || (c =? 46));
          reflexivity).
    destruct (map _ _); reflexivity.
  - eapply Forall_impl; [exact Hs|]. intros c Hc. split.
    + unfold unsafe in Hc. apply negb_false_iff in Hc. exact Hc.
    + intros Ha. exact (word_ascii_safe rt c Ha Hc).
  - intros Ha. rewrite sanitize_filename_eq in H.
    destruct (urlparse rt url []) as [p|] eqn:Ep; simpl in H; [|discriminate].
    injection H as <-.
    assert (Forall (fun c => is_ascii c = true) (hd [] (split_on 63 (basename (path p)))))
      as Hb.
    { apply Forall_split_head, Forall_after_last.
      apply (urlparse_path (fun c => is_ascii c = true) rt url [] p); [|exact Ep].
      apply Forall_forall. intros c Hc. eapply forallb_forall in Ha; eauto.
      apply list_elem_of_In. exact Hc. }
    assert (forallb safe_char
              (flat_map (fun c => if unsafe rt c then U "_" else [c])
                 (hd [] (split_on 63 (basename (path p))))) = true) as Hf.
    { clear Hs. induction Hb as [|c l Hc Hl IH]; [reflexivity|].
      cbn [flat_map]. rewrite forallb_app, IH, andb_true_r.
      destruct (unsafe rt c) eqn:Eu; [reflexivity|].
      cbn [forallb]. rewrite (word_ascii_safe rt c Hc Eu). reflexivity. }
    destruct (flat_map _ _); [reflexivity|exact Hf].
Qed.

Lemma sanitize_filename_chars_witness :
  (exists parsed,
     urlparse rt_eval (U "https://cdn.io/x/a b.png?w=1") [] = Ret parsed
     /\ U "a_b.png"
        = match map (fun c => if word rt_eval c || (c =? 45) || (c =? 46) then c else 95)
                  (hd [] (split_on 63 (basename (path parsed)))) with
          | [] => U "image"
          | name => name
          end)
  /\ Forall (fun c => (word rt_eval c || (c =? 45) || (c =? 46)) = true
                      /\ (is_ascii c = true -> safe_char c = true)) (U "a_b.png")
  /\ (forallb is_ascii (U "https://cdn.io/x/a b.png?w=1") = true ->
      forallb safe_char (U "a_b.png") = true).
Proof.
  apply (sanitize_filename_chars rt_eval (U "https://cdn.io/x/a b.png?w=1") (U "a_b.png")).
  vm_compute. reflexivity.
Defined.

(** C8 (as stated) fails: the letter e with acute accent (U+00E9) is a word
    character, so the sanitizer keeps it, and it is outside the safe set. *)
Lemma sanitize_filename_keeps_unicode :
  sanitize_filename rt_eval (U "https://cdn.io/caf" ++ [233] ++ U ".png")
    = Ret (U "caf" ++ [233] ++ U ".png")
  /\ safe_char 233 = false.
Proof. split; vm_compute; reflexivity. Qed.

(** C4: the converted text of the heading-and-paragraph example starts with
    the heading line and holds the bold text. *)
Theorem html_to_markdown_example :
  let out := html_to_markdown (U "<h1>Title</h1><p>Hello <strong>world</strong></p>") in
  (exists rest, out = U "# Title" ++ rest)
  /\ (exists pre post, out = pre ++ U "Hello **world**" ++ post).
Proof.
  cbv zeta. rewrite md_h1. split.
  - exists (U "Hello **world**"). reflexivity.
  - exists (U "# Title"), []. reflexivity.
Qed.

(** ** The URL extractor *)

Lemma size_union_le (X Y : gset str) : (size (X ∪ Y) <= size X + size Y)%nat.
Proof.
  rewrite size_union_alt.
  assert (Y ∖ X ⊆ Y) as H by set_solver. apply subseteq_size in H. lia.
Qed.

(** A loop that returns has added the results of its body, one per
    element. *)
Lemma add_each_spec {X} (f : X -> result str) l : forall urls urls',
  add_each f l urls = Ret urls' ->
  exists us, Forall2 (fun x u => f x = Ret u) l us /\ urls' = list_to_set us ∪ urls.
Proof.
  induction l as [|x l IH]; intros urls urls'; simpl.
  - intros H. injection H as <-. exists []. split; [constructor|]. set_solver.
  - destruct (f x) as [u|e] eqn:E; simpl; [|discriminate].
    intros H. apply IH in H as (us & Hus & ->).
    exists (u :: us). split; [constructor; auto|]. set_solver.
Qed.

(** A function has no more distinct results than distinct arguments. *)
Lemma image_size (f : str -> result str) l us :
  Forall2 (fun x u => f x = Ret u) l us ->
  (size (list_to_set us : gset str) <= size (list_to_set l : gset str))%nat.
Proof.
  induction 1 as [|x u l us Hx Hl IH]; [reflexivity|].
  cbn [list_to_set]. destruct (decide (x ∈ l)) as [Hin|Hout].
  - assert (u ∈ us) as Hu.
    { clear IH. induction Hl as [|y v l us Hy Hl IH]; [inversion Hin|].
      apply elem_of_cons in Hin as [->|Hin]; [|apply elem_of_cons; right; auto].
      rewrite Hx in Hy. injection Hy as <-. apply elem_of_cons. auto. }
    rewrite (subseteq_union_1_L {[u]} (list_to_set us))
      by (apply singleton_subseteq_l, elem_of_list_to_set, Hu).
    rewrite (subseteq_union_1_L {[x]} (list_to_set l))
      by (apply singleton_subseteq_l, elem_of_list_to_set, Hin).
    exact IH.
  - rewrite (size_union {[x]} (list_to_set l)).
    + pose proof (size_union_le {[u]} (list_to_set us)) as Hle.
      rewrite !size_singleton in *. lia.
    + apply disjoint_singleton_l. rewrite elem_of_list_to_set. exact Hout.
Qed.

Lemma add_each_size (f : str -> result str) l urls urls' :
  add_each f l urls = Ret urls' ->
  (size urls' <= size urls + size (list_to_set l : gset str))%nat.
Proof.
  intros H. apply add_each_spec in H as (us & Hus & ->).
  pose proof (image_size f l us Hus). pose proof (size_union_le (list_to_set us) urls). lia.
Qed.

(** *** Where the matches of a scan lie *)

(** Each match that the scan reports is a match of the pattern at some
    position of the text. *)
Lemma finditer_aux_sound (p : pattern) (s : str) :
  forall (skip : nat) (m : str) (g : list str),
  In (m, g) (finditer_aux p skip s) ->
  exists a rest, s = a ++ m ++ rest /\ match_items p (m ++ rest) = Some (g, rest).
Proof.
  induction s as [|c s IH]; intros skip m g; cbn [finditer_aux].
  - destruct (match_items p []) as [[g' r]|] eqn:E; [|intros []].
    intros [H|[]]. injection H as <- <-.
    destruct (match_items_prefix _ _ _ _ E) as [m' Hm].
    symmetry in Hm. apply app_eq_nil in Hm as [-> ->].
    exists [], []. split; [reflexivity|exact E].
  - assert (Hlater : forall k, In (m, g) (finditer_aux p k s) ->
              exists a rest, c :: s = a ++ m ++ rest
                             /\ match_items p (m ++ rest) = Some (g, rest)).
    { intros k H. apply IH in H as (a & rest & -> & Hm).
      exists (c :: a), rest. split; [reflexivity|exact Hm]. }
    destruct skip as [|k]; [|apply Hlater].
    destruct (match_items p (c :: s)) as [[g' r]|] eqn:E; [|apply Hlater].
    destruct (match_items_prefix _ _ _ _ E) as [m' Hm].
    assert (take (length (c :: s) - length r) (c :: s) = m') as Ht.
    { rewrite Hm, length_app.
      replace (length m' + length r - length r)%nat with (length m') by lia.
      apply take_app_length. }
    intros [H|H]; [|exact (Hlater _ H)].
    rewrite Ht in H. injection H as <- <-.
    exists [], r. split; [exact Hm|]. rewrite <- Hm. exact E.
Qed.

Lemma finditer_sound (p : pattern) (s m : str) (g : list str) :
  In (m, g) (re_finditer p s) ->
  exists a rest, s = a ++ m ++ rest /\ match_items p (m ++ rest) = Some (g, rest).
Proof. apply finditer_aux_sound. Qed.

(** *** What a match consists of *)

Lemma match_items_cons (it : item) (p : pattern) (s : str) (g : list str) (rest : str) :
  match_items (it :: p) s = Some (g, rest) ->
  exists a b g', s = a ++ b /\ forallb (cls it) a = true /\ (lo it <= length a)%nat
    /\ match_items p b = Some (g', rest)
    /\ g = (if cap it then a :: g' else g').
Proof. intros H. apply (match_rep_sound it (match_items p) s _ _ [] g rest H). Qed.

(** An optional character takes at most one. *)
Lemma match_opt (f : N -> bool) (p : pattern) (s : str) (r : list str * str) :
  match_items (opt f :: p) s = Some r ->
  match_items p s = Some r
  \/ exists c s', s = c :: s' /\ f c = true /\ match_items p s' = Some r.
Proof.
  destruct s as [|c s]; cbn [match_items opt lo hi].
  - simpl. destruct (match_items p []) as [[g rest]|]; [|discriminate]. auto.
  - set (k := match_items p).
    assert (E : match_rep (opt f) k 0 (Some 1%nat) [] (c :: s) =
                if f c && true
                then match match_rep (opt f) k 0 (Some 0%nat) [c] s with
                     | Some r => Some r
                     | None => close_group (opt f) [] (k (c :: s))
                     end
                else close_group (opt f) [] (k (c :: s))) by reflexivity.
    fold (opt f). rewrite E. clear E.
    rewrite andb_true_r, match_rep_full, !close_group_nocap by reflexivity.
    subst k. destruct (f c) eqn:Ec; [|auto].
    destruct (match_items p s) as [r'|] eqn:Es; [|auto].
    intros H. injection H as <-. right. exists c, s. auto.
Qed.

(** A sequence of single characters, each of its class. *)
Lemma match_ones (f : N -> N -> bool) (w : str) (p : pattern) :
  forall (s : str) (r : list str * str),
  match_items (map (fun c => one (f c)) w ++ p) s = Some r ->
  exists a b, s = a ++ b /\ Forall2 (fun c x => f c x = true) w a
              /\ match_items p b = Some r.
Proof.
  induction w as [|c w IH]; intros s r H.
  - exists [], s. split; [reflexivity|]. split; [constructor|exact H].
  - cbn [map app] in H. rewrite match_one in H.
    destruct s as [|x s]; [discriminate|].
    destruct (f c x) eqn:E; [|discriminate].
    apply IH in H as (a & b & -> & Ha & Hm).
    exists (x :: a), b. split; [reflexivity|]. split; [constructor; assumption|exact Hm].
Qed.

Lemma Forall2_eqb (w a : str) : Forall2 (fun c x => (c =? x) = true) w a -> a = w.
Proof.
  induction 1 as [|c x w a Hc _ IH]; [reflexivity|].
  apply N.eqb_eq in Hc. congruence.
Qed.

(** *** The matches are among the references of the text *)

Lemma suffixes_app (a b : str) : In b (suffixes (a ++ b)).
Proof.
  induction a as [|c a IH]; simpl.
  - destruct b; left; reflexivity.
  - right. exact IH.
Qed.

Lemma heads_app (x b : str) : x <> [] -> In (x, b) (heads (x ++ b)).
Proof.
  induction x as [|c x IH]; [congruence|]. intros _. simpl.
  destruct x as [|d x]; [left; reflexivity|]. right.
  apply in_map_iff. exists (d :: x, b). split; [reflexivity|]. apply IH. discriminate.
Qed.

Lemma starts_ci_app (w a b : str) :
  Forall2 (fun c x => ci c x = true) w a ->
  starts_ci w (a ++ b) = true /\ drop (length w) (a ++ b) = b.
Proof.
  induction 1 as [|c x w a Hc _ [IH1 IH2]]; [split; reflexivity|].
  simpl. rewrite Hc, IH1. split; [reflexivity|exact IH2].
Qed.

Lemma nonempty_length (x : str) : (1 <= length x)%nat -> x <> [].
Proof. destruct x; simpl; [lia|discriminate]. Qed.

Lemma quoted_In (q1 q2 : N) (x b : str) :
  quote q1 = true -> quote q2 = true -> x <> [] ->
  forallb (notin [DQ; SQ]) x = true ->
  In x (quoted (q1 :: x ++ q2 :: b)).
Proof.
  intros H1 H2 Hx Hf. unfold quoted. rewrite H1.
  apply in_flat_map. exists (x, q2 :: b). split; [apply heads_app, Hx|].
  simpl. rewrite H2, Hf. left. reflexivity.
Qed.

(** A quoted value in front of the rest of a pattern. *)
Lemma quoted_match (s : str) (g : list str) (rest : str) :
  match_items [one quote; grp (plus (notin [DQ; SQ])); one quote] s = Some (g, rest) ->
  exists q1 q2 x, s = q1 :: x ++ q2 :: rest /\ g = [x] /\ In x (quoted s).
Proof.
  intros H. rewrite match_one in H. destruct s as [|q1 s]; [discriminate|].
  destruct (quote q1) eqn:E1; [|discriminate].
  apply match_items_cons in H as (x & b & g' & -> & Hx & Hl & H & ->).
  rewrite match_one in H. destruct b as [|q2 b]; [discriminate|].
  destruct (quote q2) eqn:E2; [|discriminate].
  injection H as <- <-. exists q1, q2, x. split; [reflexivity|]. split; [reflexivity|].
  apply quoted_In; auto using nonempty_length.
Qed.

Lemma img_srcs_text (html x : str) : In x (img_srcs html) -> In x (text_img_srcs html).
Proof.
  unfold img_srcs. intros H. apply in_map_iff in H as ([m g] & <- & H).
  apply finditer_sound in H as (a & rest & -> & H). revert H. generalize (m ++ rest).
  intros s H. unfold img_pattern, lit_i in H.
  apply match_ones in H as (tag & s1 & -> & Htag & H).
  cbn [app] in H. apply match_items_cons in H as (t & s2 & g' & -> & Ht & Hl & H & ->).
  apply match_ones in H as (key & s3 & -> & Hkey & H).
  apply quoted_match in H as (q1 & q2 & v & E & -> & Hv).
  unfold text_img_srcs. apply in_flat_map.
  exists (tag ++ t ++ key ++ s3). split; [apply suffixes_app|].
  destruct (starts_ci_app _ _ (t ++ key ++ s3) Htag) as [-> Hd].
  change (length (U "<img")) with 4%nat in Hd. rewrite Hd.
  apply in_flat_map. exists (t, key ++ s3). split; [apply heads_app, nonempty_length, Hl|].
  destruct (starts_ci_app _ _ s3 Hkey) as [Hs Hd'].
  change (length (U "src=")) with 4%nat in Hd'.
  cbn [fst snd cls plus] in *. rewrite Ht, Hs, Hd'. exact Hv.
Qed.

Lemma srcset_parts_text (html x : str) :
  In x (srcset_parts html) -> In x (text_srcset_entries html).
Proof.
  unfold srcset_parts, text_srcset_entries. intros H.
  apply in_flat_map in H as ([m g] & H & Hx). apply in_flat_map.
  exists (group1 (m, g)). split; [|exact Hx].
  apply finditer_sound in H as (a & rest & -> & H). revert H. generalize (m ++ rest).
  intros s H. unfold srcset_pattern, lit_i in H.
  apply match_ones in H as (key & s1 & -> & Hkey & H).
  apply quoted_match in H as (q1 & q2 & v & E & -> & Hv).
  apply in_flat_map. exists (key ++ s1). split; [apply suffixes_app|].
  destruct (starts_ci_app _ _ s1 Hkey) as [-> Hd].
  change (length (U "srcset=")) with 7%nat in Hd. rewrite Hd. exact Hv.
Qed.

Lemma closes_paren (o rest : str) :
  (o = [] \/ exists q, o = [q] /\ quote q = true) -> closes (o ++ 41 :: rest) = true.
Proof.
  intros [->|(q & -> & Hq)]; simpl; [reflexivity|].
  rewrite Hq. apply orb_true_r.
Qed.

Lemma bg_urls_text (html x : str) : In x (bg_urls html) -> In x (text_css_urls html).
Proof.
  unfold bg_urls. intros H. apply in_map_iff in H as ([m g] & <- & H).
  apply finditer_sound in H as (a & rest & -> & H). revert H. generalize (m ++ rest).
  intros s H. unfold bg_pattern, lit_i in H.
  apply match_ones in H as (key & s1 & -> & Hkey & H).
  unfold text_css_urls. apply in_flat_map.
  exists (key ++ s1). split; [apply suffixes_app|].
  destruct (starts_ci_app _ _ s1 Hkey) as [-> Hd].
  change (length (U "url(")) with 4%nat in Hd. rewrite Hd. clear Hd Hkey.
  assert (Hbare : forall s, match_items ([grp (plus (notin [41; DQ; SQ])); opt quote]
                                          ++ lit ")") s = Some (g, rest) ->
                            In (group1 (m, g)) (bare_ref s)).
  { clear. intros s H. cbn [app] in H.
    apply match_items_cons in H as (v & s2 & g' & -> & Hv & Hl & H & ->).
    assert (exists o, (o = [] \/ exists q, o = [q] /\ quote q = true)
                      /\ s2 = o ++ 41 :: rest /\ g' = []) as (o & Ho & -> & ->).
    { apply match_opt in H as [H|(q & s3 & -> & Hq & H)].
      - exists []. split; [auto|]. change (lit ")") with [chr 41] in H.
        rewrite match_chr in H. destruct s2 as [|c s2]; [discriminate|].
        destruct (41 =? c) eqn:Ec; [|discriminate]. apply N.eqb_eq in Ec. subst c.
        injection H as <- <-. auto.
      - exists [q]. split; [eauto|]. change (lit ")") with [chr 41] in H.
        rewrite match_chr in H. destruct s3 as [|c s3]; [discriminate|].
        destruct (41 =? c) eqn:Ec; [|discriminate]. apply N.eqb_eq in Ec. subst c.
        injection H as <- <-. auto. }
    unfold bare_ref. apply in_flat_map. exists (v, o ++ 41 :: rest).
    split; [apply heads_app, nonempty_length, Hl|].
    cbn [fst snd cls grp plus] in *. rewrite Hv, (closes_paren o rest Ho).
    left. reflexivity. }
  cbn [app] in H. apply match_opt in H as [H|(q & s2 & -> & Hq & H)].
  - unfold css_ref. apply in_or_app. left. apply Hbare, H.
  - unfold css_ref. apply in_or_app. right. rewrite Hq. apply Hbare, H.
Qed.

(** A greedy, unbounded, uncaptured class at the end of a pattern takes the
    whole run, when it is long enough. *)
Lemma match_rep_greedy_last it :
  greedy it = true -> cap it = false ->
  forall s l acc,
    match_rep it (match_items []) l None acc s =
    if (l <=? length (run (cls it) s))%nat then Some ([], after (cls it) s) else None.
Proof.
  intros Hg Hc. induction s as [|c s IH]; intros l acc; simpl.
  - destruct l; simpl; rewrite ?Hc; reflexivity.
  - destruct (cls it c) eqn:E; simpl.
    + rewrite Hg, IH.
      replace (l <=? S (length (run (cls it) s)))%nat
        with (pred l <=? length (run (cls it) s))%nat
        by (destruct l; simpl; reflexivity).
      destruct (pred l <=? length (run (cls it) s))%nat eqn:El; [reflexivity|].
      destruct l; [discriminate El|reflexivity].
    + destruct l; simpl; rewrite ?Hc; reflexivity.
Qed.

Lemma startswith_prefix (a b : str) : startswith (a ++ b) a = true.
Proof. induction a as [|c a IH]; simpl; [destruct b; reflexivity|]. rewrite N.eqb_refl. exact IH. Qed.

(** A match of a CDN pattern is the prefix and the whole run after it. *)
Lemma cdn_match_text (w : string) (html m : str) (g : list str) :
  In (U w) cdn_prefixes ->
  In (m, g) (re_finditer (lit w ++ [cdn_tail]) html) ->
  In m (text_cdn_urls html).
Proof.
  intros Hw H. apply finditer_sound in H as (a & rest & -> & H).
  unfold lit in H. change (map chr (U w)) with (map (fun c => one (N.eqb c)) (U w)) in H.
  destruct (match_ones _ _ _ _ _ H) as (w' & s1 & E & Hw' & H1).
  apply Forall2_eqb in Hw'. subst w'.
  cbn [match_items cdn_tail lo hi plus] in H1. fold cdn_tail in H1.
  rewrite match_rep_greedy_last in H1 by reflexivity.
  change (cls cdn_tail) with cdn_char in H1.
  destruct (1 <=? length (run cdn_char s1))%nat eqn:El; [|discriminate].
  injection H1 as <- <-. apply Nat.leb_le in El.
  assert (m = U w ++ run cdn_char s1) as ->.
  { apply (app_inv_tail (after cdn_char s1)). rewrite E, <- app_assoc.
    f_equal. apply run_after. }
  rewrite <- app_assoc, <- run_after.
  unfold text_cdn_urls. apply in_flat_map. exists (U w). split; [exact Hw|].
  apply in_flat_map. exists (U w ++ s1). split; [apply suffixes_app|].
  rewrite startswith_prefix, drop_app_length.
  destruct (run cdn_char s1); [simpl in El; lia|]. left. reflexivity.
Qed.

Lemma cdn_urls_text (html x : str) : In x (cdn_urls html) -> In x (text_cdn_urls html).
Proof.
  unfold cdn_urls. intros H.
  apply in_app_or in H as [H|H]; [|apply in_app_or in H as [H|H]];
    apply in_map_iff in H as ([m g] & <- & H);
    refine (cdn_match_text _ html m g _ H); simpl; auto.
Qed.

(** The distinct elements of a list are no more than those of a list
    that holds them all. *)
Lemma size_incl (l k : list str) :
  (forall x, In x l -> In x k) ->
  (size (list_to_set l : gset str) <= size (list_to_set k : gset str))%nat.
Proof.
  intros H. apply subseteq_size. intros x. rewrite !elem_of_list_to_set.
  rewrite !list_elem_of_In. apply H.
Qed.

(** C6 (amended): the set that the extractor returns has at most N + S + B +
    M elements and, being a set, no duplicates, where the four counts are
    read off the text: N distinct quoted values that follow the text src= in
    an img tag (after the opening of the tag and one or more characters other
    than GT), S distinct entries between commas of the quoted values that
    follow srcset=, B distinct addresses of CSS references url(...), and M
    distinct CDN-shaped substrings (a CDN prefix and the characters after it
    up to a quote, GT, white space or the end). *)
Theorem extract_image_urls_size (rt : runtime) (html base_url : str) (urls : gset str) :
  extract_image_urls rt html base_url = Ret urls ->
  (size urls <= size (list_to_set (text_img_srcs html) : gset str)
              + size (list_to_set (text_srcset_entries html) : gset str)
              + size (list_to_set (text_css_urls html) : gset str)
              + size (list_to_set (text_cdn_urls html) : gset str))%nat
  /\ NoDup (elements urls).
Proof.
  unfold extract_image_urls. intros H. split; [|apply NoDup_elements].
  destruct (add_each (normalize_url rt base_url) (img_srcs html) ∅) as [u1|] eqn:E1;
    simpl in H; [|discriminate].
  destruct (add_each _ (srcset_parts html) u1) as [u2|] eqn:E2; simpl in H; [|discriminate].
  destruct (add_each _ (bg_urls html) u2) as [u3|] eqn:E3; simpl in H; [|discriminate].
  apply add_each_size in E1, E2, E3, H. rewrite size_empty in E1.
  pose proof (size_incl _ _ (img_srcs_text html)).
  pose proof (size_incl _ _ (srcset_parts_text html)).
  pose proof (size_incl _ _ (bg_urls_text html)).
  pose proof (size_incl _ _ (cdn_urls_text html)).
  lia.
Qed.

Lemma extract_image_urls_size_witness :
  (size ({[ U "https://frame.io/a.png"; U "https://frame.io/b.png" ]} : gset str)
    <= size (list_to_set (text_img_srcs (U "<img src='/a.png'><div style='x:url(b.png)'>"))
               : gset str)
     + size (list_to_set
               (text_srcset_entries (U "<img src='/a.png'><div style='x:url(b.png)'>"))
               : gset str)
     + size (list_to_set (text_css_urls (U "<img src='/a.png'><div style='x:url(b.png)'>"))
               : gset str)
     + size (list_to_set (text_cdn_urls (U "<img src='/a.png'><div style='x:url(b.png)'>"))
               : gset str))%nat
  /\ NoDup (elements ({[ U "https://frame.io/a.png"; U "https://frame.io/b.png" ]}
                        : gset str)).
Proof.
  apply (extract_image_urls_size rt_eval
           (U "<img src='/a.png'><div style='x:url(b.png)'>") (U "https://frame.io/x")).
  vm_compute. reflexivity.
Defined.

(** C6 (as stated) fails: a page with no img tag and no CDN-shaped substring
    (N = M = 0) whose style holds a CSS url reference yields a set of one
    element. *)
Lemma extract_image_urls_css_only :
  let html := U "<div style='background:url(https://x.io/a.png)'>" in
  extract_image_urls rt_eval html (U "https://frame.io/x") = Ret {[ U "https://x.io/a.png" ]}
  /\ text_img_srcs html = [] /\ text_cdn_urls html = []
  /\ size ({[ U "https://x.io/a.png" ]} : gset str) = 1%nat.
Proof.
  cbv zeta. split; [vm_compute; reflexivity|].
  split; [vm_compute; reflexivity|]. split; [vm_compute; reflexivity|].
  apply size_singleton.
Qed.

(** C7: a protocol-relative URL is promoted to https, and a URL with an
    absolute path is resolved against the origin of the base URL; the
    extractor returns the img sources so normalised. *)
Theorem url_normalization (rt : runtime) :
  normalize_url rt (U "https://frame.io/x") (U "//cdn.example.com/a.png")
    = Ret (U "https://cdn.example.com/a.png")
  /\ normalize_url rt (U "https://frame.io/x") (U "/a.png")
    = Ret (U "https://frame.io/a.png")
  /\ extract_image_urls rt (U "<img src='//cdn.example.com/a.png'>") (U "https://frame.io/x")
    = Ret {[ U "https://cdn.example.com/a.png" ]}
  /\ extract_image_urls rt (U "<img src='/a.png'>") (U "https://frame.io/x")
    = Ret {[ U "https://frame.io/a.png" ]}.
Proof. repeat split; vm_compute; reflexivity. Qed.

(** ** The writers *)

(** The article saver skips an existing file. *)
Lemma save_article_exists (rt : runtime) (w : world) (fs : fsys) (url : str)
    (filepath : path_t) (category : str) :
  is_Some (fs !! filepath) -> save_article rt w fs url filepath category = (true, fs).
Proof. intros [x Hx]. unfold save_article. rewrite Hx. reflexivity. Qed.

(** What [download] does, by the outcome of the request and of the write. *)
Lemma download_spec (w : world) (fs : fsys) (url : str) (p : path_t) :
  download w fs url p =
  match urlopen w url with
  | Ret data =>
      match disk w p data with
      | Written => (true, <[p := data]> fs)
      | OpenFails => (false, fs)
      | WriteFails residue => (false, <[p := residue]> fs)
      end
  | Raise _ => (false, fs)
  end.
Proof.
  unfold download, write_file. destruct (urlopen w url); simpl; [|reflexivity].
  destruct (disk w p a); reflexivity.
Qed.

(** The same for [download_image], which looks at the status itself. *)
Lemma download_image_eq (w : world) (fs : fsys) (url : str) (p : path_t) :
  download_image w fs url p =
  match net w url with
  | Http st body =>
      if st =? 200 then
        match disk w p body with
        | Written => (true, <[p := body]> fs)
        | OpenFails => (false, fs)
        | WriteFails residue => (false, <[p := residue]> fs)
        end
      else (false, fs)
  | _ => (false, fs)
  end.
Proof.
  unfold download_image, requests_get, write_file.
  destruct (net w url) as [| |st body]; try reflexivity.
  destruct (st =? 200); [|reflexivity]. destruct (disk w p body); reflexivity.
Qed.

(** C1 (amended): on a path that already holds content the article saver
    returns success and changes no file.  The image writers make no such
    check.  When the request is answered with a 2xx status ([download]) or
    with status 200 ([download_image]) they open the path for writing: if the
    write succeeds they return True and the path holds the fetched bytes in
    place of what it held; if the open fails they return False and no file
    has changed; if the write fails after the open they return False and the
    path holds what the failed write left.  When the request is not answered
    so (no answer in time, a transport failure, another status) they return
    False and no file has changed. *)
Theorem writer_existing_path (rt : runtime) (w : world) (fs : fsys)
    (url : str) (p : path_t) (category : str) (old : list N) :
  fs !! p = Some old ->
  save_article rt w fs url p category = (true, fs)
  /\ download w fs url p =
     match net w url with
     | Http st body =>
         if (200 <=? st) && (st <? 300) then
           match disk w p body with
           | Written => (true, <[p := body]> fs)
           | OpenFails => (false, fs)
           | WriteFails residue => (false, <[p := residue]> fs)
           end
         else (false, fs)
     | _ => (false, fs)
     end
  /\ download_image w fs url p =
     match net w url with
     | Http st body =>
         if st =? 200 then
           match disk w p body with
           | Written => (true, <[p := body]> fs)
           | OpenFails => (false, fs)
           | WriteFails residue => (false, <[p := residue]> fs)
           end
         else (false, fs)
     | _ => (false, fs)
     end.
Proof.
  intros H. split; [apply save_article_exists; eauto|]. split.
  - rewrite download_spec. unfold urlopen.
    destruct (net w url) as [| |st body]; try reflexivity.
    destruct ((200 <=? st) && (st <? 300)); reflexivity.
  - apply download_image_eq.
Qed.

Lemma writer_existing_path_witness :
  save_article rt_eval world_B {[ [U "P"] := U "A" ]} (U "https://help.frame.io/x")
    [U "P"] (U "c") = (true, {[ [U "P"] := U "A" ]})
  /\ download world_B {[ [U "P"] := U "A" ]} (U "https://help.frame.io/x") [U "P"]
     = (true, <[ [U "P"] := U "B" ]> {[ [U "P"] := U "A" ]})
  /\ download_image world_B {[ [U "P"] := U "A" ]} (U "https://help.frame.io/x") [U "P"]
     = (true, <[ [U "P"] := U "B" ]> {[ [U "P"] := U "A" ]}).
Proof.
  apply (writer_existing_path rt_eval world_B {[ [U "P"] := U "A" ]}
           (U "https://help.frame.io/x") [U "P"] (U "c") (U "A")).
  vm_compute. reflexivity.
Defined.

(** C1 (as stated) fails for the image writers: with A at the path and a
    request that answers B, [download] and [download_image] return success
    and the path holds B. *)
Lemma download_overwrites :
  download world_B {[ [U "P"] := U "A" ]} (U "https://cdn.io/a.png") [U "P"]
    = (true, {[ [U "P"] := U "B" ]})
  /\ download_image world_B {[ [U "P"] := U "A" ]} (U "https://cdn.io/a.png") [U "P"]
    = (true, {[ [U "P"] := U "B" ]})
  /\ ({[ [U "P"] := U "B" ]} : fsys) !! [U "P"] <> Some (U "A").
Proof.
  split; [|split].
  - rewrite download_spec. simpl. rewrite insert_singleton_eq. reflexivity.
  - rewrite download_image_eq. simpl. rewrite insert_singleton_eq. reflexivity.
  - rewrite lookup_singleton_eq. intros H. discriminate H.
Qed.

(** ** Naming of the artifacts *)

Lemma uint_chars_inj u v : uint_chars u = uint_chars v -> u = v.
Proof.
  revert v. induction u as [|u IH|u IH|u IH|u IH|u IH|u IH|u IH|u IH|u IH|u IH];
    intros [|v|v|v|v|v|v|v|v|v|v] H; simpl in H; try discriminate; try reflexivity;
    injection H as H; f_equal; auto.
Qed.

Lemma dec_inj n m : dec n = dec m -> n = m.
Proof.
  unfold dec. intros H. apply uint_chars_inj in H.
  rewrite <- (DecimalN.Unsigned.of_to n), <- (DecimalN.Unsigned.of_to m), H. reflexivity.
Qed.

Lemma uint_chars_digits u : forallb is_digit (uint_chars u) = true.
Proof. induction u; simpl; auto. Qed.

Lemma dec_digits n : forallb is_digit (dec n) = true.
Proof. apply uint_chars_digits. Qed.

Lemma dec_nonempty n : dec n <> [].
Proof.
  unfold dec. destruct n as [|p]; [discriminate|].
  intros H. pose proof (DecimalN.Unsigned.of_to (N.pos p)) as E.
  destruct (N.to_uint (N.pos p)); simpl in H; discriminate.
Qed.

Lemma chars_uint_chars u : chars_uint (uint_chars u) = u.
Proof. induction u; simpl; congruence. Qed.

Lemma of_uint_zeros k s :
  N.of_uint (chars_uint (replicate k 48 ++ s)) = N.of_uint (chars_uint s).
Proof. induction k as [|k IH]; simpl; auto. Qed.

Lemma fmt_03d_inj i j : fmt_03d i = fmt_03d j -> i = j.
Proof.
  unfold fmt_03d. intros H.
  apply (f_equal (fun s => N.of_uint (chars_uint s))) in H.
  rewrite !of_uint_zeros in H. unfold dec in H.
  rewrite !chars_uint_chars, !DecimalN.Unsigned.of_to in H. lia.
Qed.

Lemma fmt_03d_digits i : forallb is_digit (fmt_03d i) = true.
Proof.
  unfold fmt_03d. rewrite forallb_app, dec_digits, andb_true_r.
  induction (3 - length (dec (N.of_nat i)))%nat; simpl; auto.
Qed.

Lemma fmt_03d_head i : exists c s, fmt_03d i = c :: s /\ is_digit c = true.
Proof.
  pose proof (fmt_03d_digits i) as H.
  destruct (fmt_03d i) as [|c s] eqn:E.
  - unfold fmt_03d in E. apply app_eq_nil in E as [_ E]. destruct (dec_nonempty _ E).
  - simpl in H. apply andb_true_iff in H as [H _]. eauto.
Qed.
Lemma run_app_stop f a c s :
  forallb f a = true -> f c = false -> run f (a ++ c :: s) = a.
Proof.
  induction a as [|x a IH]; simpl; intros Ha Hc.
  - rewrite Hc. reflexivity.
  - apply andb_true_iff in Ha as [-> Ha]. rewrite IH; auto.
Qed.

Lemma run_app_all f a s : forallb f a = true -> run f (a ++ s) = a ++ run f s.
Proof.
  induction a as [|x a IH]; simpl; intros Ha; [reflexivity|].
  apply andb_true_iff in Ha as [-> Ha]. rewrite IH; auto.
Qed.

Lemma split_on_run c s : exists tl, split_on c s = run (notc c) s :: tl.
Proof.
  induction s as [|x s [tl IH]]; simpl; [eauto|].
  unfold notc at 1. destruct (x =? c); simpl; [eauto|].
  rewrite IH. eauto.
Qed.

Lemma digits_forallb (f : N -> bool) s :
  (forall c, is_digit c = true -> f c = true) ->
  forallb is_digit s = true -> forallb f s = true.
Proof.
  intros Hf Hs. apply forallb_forall. intros c Hc.
  eapply forallb_forall in Hs; eauto.
Qed.

Lemma digit_not_slash c : is_digit c = true -> notc 47 c = true.
Proof.
  unfold is_digit, notc. intros H. apply andb_true_iff in H as [H1 H2].
  apply N.leb_le in H1. apply negb_true_iff, N.eqb_neq. lia.
Qed.

(** The first component of the path of the [i]-th help image starts with
    the digits of [i] and an underscore. *)
Lemma help_output_path_eq i url :
  exists x tl,
    help_output_path i url = HELP_DIR ++ (fmt_03d i ++ U "_" ++ x) :: tl.
Proof.
  unfold help_output_path, pjoin. set (name := help_image_name url).
  destruct (fmt_03d_head i) as (c & s & E & Hc).
  assert (startswith (fmt_03d i ++ U "_" ++ name) (U "/") = false) as ->.
  { rewrite E. change (U "/") with [47]. simpl.
    apply digit_not_slash in Hc. unfold notc in Hc. apply negb_true_iff in Hc.
    rewrite Hc. reflexivity. }
  unfold parts.
  destruct (split_on_run 47 (fmt_03d i ++ U "_" ++ name)) as [tl ->].
  rewrite run_app_all
    by (apply (digits_forallb (notc 47)); [apply digit_not_slash|apply fmt_03d_digits]).
  change (U "_" ++ name) with (95 :: name).
  assert (run (notc 47) (95 :: name) = 95 :: run (notc 47) name) as -> by reflexivity.
  rewrite filter_cons_True.
  - exists (run (notc 47) name). eexists. reflexivity.
  - rewrite E. simpl. apply negb_prop_intro. unfold str_eqb. intros H. apply bool_decide_unpack in H.
    change (U ".") with [46] in H. injection H as -> _. discriminate Hc.
Qed.

(** C9 (amended): in a run of the help-image script two list positions
    never give the same path, whatever the URLs: the zero-padded sequence
    number in front of the name tells them apart. *)
Theorem help_paths_distinct (i j : nat) (u1 u2 : str) :
  i <> j -> help_output_path i u1 <> help_output_path j u2.
Proof.
  intros Hij H.
  destruct (help_output_path_eq i u1) as (x & t1 & E1).
  destruct (help_output_path_eq j u2) as (y & t2 & E2).
  rewrite E1, E2 in H. apply app_inv_head in H. injection H as H _.
  apply (f_equal (run is_digit)) in H.
  change (U "_" ++ x) with (95 :: x) in H. change (U "_" ++ y) with (95 :: y) in H.
  rewrite !run_app_stop in H by (try apply fmt_03d_digits; reflexivity).
  apply Hij, fmt_03d_inj, H.
Qed.

Lemma help_paths_distinct_witness :
  help_output_path 0 (U "https://downloads.intercomcdn.com/i/o/1/a/1.jpg")
  <> help_output_path 1 (U "https://downloads.intercomcdn.com/i/o/2/b/1.jpg").
Proof. apply help_paths_distinct. discriminate. Defined.
(** *** The hash suffix of [process_page] *)

Lemma sized_urls_checked rt :
  forallb (fun k => named_a_png rt (sized_url k)) (seq 0 (N.to_nat 10001)) = true.
Proof. vm_compute. reflexivity. Qed.

Lemma forallb_seq_lookup (f : nat -> bool) n k :
  forallb f (seq 0 n) = true -> (k < n)%nat -> f k = true.
Proof.
  intros H Hk. rewrite forallb_forall in H. apply H. apply in_seq. lia.
Qed.

Lemma sized_url_name rt k :
  (k < N.to_nat 10001)%nat -> sanitize_filename rt (sized_url k) = Ret (U "a.png").
Proof.
  intros Hk.
  pose proof (forallb_seq_lookup _ _ k (sized_urls_checked rt) Hk) as H.
  cbv beta in H. unfold named_a_png in H.
  destruct (sanitize_filename rt (sized_url k)) as [s|]; [|discriminate].
  unfold str_eqb in H. apply bool_decide_eq_true in H. rewrite H. reflexivity.
Qed.

Lemma sized_url_inj i j : sized_url i = sized_url j -> i = j.
Proof.
  unfold sized_url. intros H. apply app_inv_head, dec_inj in H. lia.
Qed.

Lemma sized_url_filename rt k :
  (k < N.to_nat 10001)%nat ->
  screenshot_filename rt (sized_url k)
  = Ret (U "a_" ++ dec (Z.to_N (Z.abs (str_hash rt (sized_url k)) mod 10000)) ++ U ".png").
Proof.
  intros Hk. unfold screenshot_filename. rewrite (sized_url_name rt k Hk). reflexivity.
Qed.

(** Whatever the hash function, two distinct URLs of the family get the
    same file name: there are more URLs than hash values. *)
Lemma hash_suffix_collision rt :
  exists u1 u2 f, u1 <> u2
    /\ screenshot_filename rt u1 = Ret f /\ screenshot_filename rt u2 = Ret f.
Proof.
  destruct (nat_pigeonhole
              (fun k => Z.to_nat (Z.abs (str_hash rt (sized_url k)) mod 10000))
              (N.to_nat 10001) (N.to_nat 10000)) as (i & j & Hij & Hf).
  - lia.
  - intros i _. pose proof (Z.mod_pos_bound (Z.abs (str_hash rt (sized_url i))) 10000).
    lia.
  - exists (sized_url i), (sized_url j). eexists. split; [|split].
    + intros H. apply sized_url_inj in H. lia.
    + apply sized_url_filename. lia.
    + rewrite sized_url_filename by lia.
      pose proof (Z.mod_pos_bound (Z.abs (str_hash rt (sized_url i))) 10000).
      pose proof (Z.mod_pos_bound (Z.abs (str_hash rt (sized_url j))) 10000).
      replace (Z.abs (str_hash rt (sized_url j)) mod 10000)%Z
        with (Z.abs (str_hash rt (sized_url i)) mod 10000)%Z by lia.
      reflexivity.
Qed.

(** C9 (as stated) fails for the hash suffix: no hash function makes the
    names of [process_page] distinct for all distinct URLs, so two images of
    one page can be written to the same path. *)
Lemma hash_suffix_not_injective :
  ~ exists rt : runtime,
      forall (dir : path_t) (u1 u2 f1 f2 : str), u1 <> u2 ->
        screenshot_filename rt u1 = Ret f1 -> screenshot_filename rt u2 = Ret f2 ->
        pjoin dir f1 <> pjoin dir f2.
Proof.
  intros [rt H]. destruct (hash_suffix_collision rt) as (u1 & u2 & f & Hne & H1 & H2).
  exact (H [] u1 u2 f f Hne H1 H2 eq_refl).
Qed.

(** ** Failed fetches *)

Lemma fetch_fails_urlopen (w : world) (url : str) :
  fetch_fails w url -> urlopen w url = Raise OSError.
Proof. intros [H|[b H]]; unfold urlopen; rewrite H; reflexivity. Qed.

Lemma foldl_snoc {A B} (f : A -> B -> A) (l : list B) (x : B) (st : A) :
  foldl f st (l ++ [x]) = f (foldl f st l) x.
Proof. rewrite foldl_app. reflexivity. Qed.

Lemma foldl_step {A B} (f : A -> B -> A) (l : list B) (x : B) (st : A) :
  foldl f st (x :: l) = foldl f (f st x) l.
Proof. reflexivity. Qed.

(** *** The loop of the help-image script *)

(** Two positions of the list never share a path. *)
Lemma help_output_path_index (i j : nat) (u v : str) :
  help_output_path i u = help_output_path j v -> i = j.
Proof.
  intros H.
  destruct (help_output_path_eq i u) as (x & t1 & E1).
  destruct (help_output_path_eq j v) as (y & t2 & E2).
  rewrite E1, E2 in H. apply app_inv_head in H. injection H as H _.
  apply (f_equal (run is_digit)) in H.
  change (U "_" ++ x) with (95 :: x) in H. change (U "_" ++ y) with (95 :: y) in H.
  rewrite !run_app_stop in H by (try apply fmt_03d_digits; reflexivity).
  apply fmt_03d_inj, H.
Qed.

(** [download] touches no path but its own. *)
Lemma download_other (w : world) (fs : fsys) (url : str) (p q : path_t) :
  q <> p -> (download w fs url p).2 !! q = fs !! q.
Proof.
  intros Hq. rewrite download_spec. destruct (urlopen w url) as [data|]; [|reflexivity].
  destruct (disk w p data); simpl; try reflexivity; apply lookup_insert_ne; congruence.
Qed.

Lemma help_step_eq (w : world) (i s : nat) (fs : fsys) (u : str) :
  help_step w (i, s, fs) u
  = (S i, if (download w fs u (help_output_path i u)).1 then S s else s,
     (download w fs u (help_output_path i u)).2).
Proof. unfold help_step. destruct (download w fs u (help_output_path i u)); reflexivity. Qed.

(** The loop counts each entry once, and no more successes than entries. *)
Lemma help_loop_counts (w : world) (l : list str) :
  forall (i0 s0 : nat) (fs0 : fsys) (i s : nat) (fs : fsys),
  foldl (help_step w) (i0, s0, fs0) l = (i, s, fs) ->
  (i = i0 + length l /\ s0 <= s <= s0 + length l)%nat.
Proof.
  induction l as [|u l IH]; intros i0 s0 fs0 i s fs.
  - simpl. intros H. injection H as <- <- <-. lia.
  - rewrite foldl_step, help_step_eq. intros H. apply IH in H. simpl.
    destruct (download w fs0 u (help_output_path i0 u)).1; lia.
Qed.

(** The loop changes no file besides the paths of its entries. *)
Lemma help_loop_frame (w : world) (l : list str) :
  forall (i0 s0 : nat) (fs0 : fsys) (q : path_t),
  (forall j u, l !! j = Some u -> help_output_path (i0 + j) u <> q) ->
  (foldl (help_step w) (i0, s0, fs0) l).2 !! q = fs0 !! q.
Proof.
  induction l as [|u l IH]; intros i0 s0 fs0 q Hq; [reflexivity|].
  rewrite foldl_step, help_step_eq, IH.
  - apply download_other. intros ->. apply (Hq O u); [reflexivity|].
    rewrite Nat.add_0_r. reflexivity.
  - intros j v Hj. replace (S i0 + j)%nat with (i0 + S j)%nat by lia.
    apply Hq. exact Hj.
Qed.

(** An entry that can be fetched and written is there when the loop ends. *)
Lemma help_loop_written (w : world) (l : list str) :
  forall (i0 s0 : nat) (fs0 : fsys) (j : nat) (u : str) (st : N) (body : list N),
  l !! j = Some u -> net w u = Http st body -> 200 <= st < 300 ->
  disk w (help_output_path (i0 + j) u) body = Written ->
  (foldl (help_step w) (i0, s0, fs0) l).2 !! help_output_path (i0 + j) u = Some body.
Proof.
  induction l as [|v l IH]; intros i0 s0 fs0 j u st body Hj Hn Hst Hd; [discriminate|].
  rewrite foldl_step, help_step_eq. destruct j as [|j].
  - injection Hj as ->. rewrite Nat.add_0_r in *. rewrite help_loop_frame.
    + rewrite download_spec. unfold urlopen. rewrite Hn.
      assert ((200 <=? st) && (st <? 300) = true) as ->
        by (apply andb_true_iff; split; [apply N.leb_le|apply N.ltb_lt]; lia).
      rewrite Hd. apply lookup_insert_eq.
    + intros k x _ E. apply help_output_path_index in E. lia.
  - replace (i0 + S j)%nat with (S i0 + j)%nat in * by lia.
    apply (IH _ _ _ _ _ st); assumption.
Qed.

Lemma help_images_main_eq (w : world) (urls : list str) (fs : fsys) :
  help_images_main w urls fs
  = (length urls, (foldl (help_step w) (O, O, fs) urls).1.2,
     (length urls - (foldl (help_step w) (O, O, fs) urls).1.2)%nat,
     (foldl (help_step w) (O, O, fs) urls).2).
Proof.
  unfold help_images_main. destruct (foldl (help_step w) (O, O, fs) urls) as [[i s] fs'].
  reflexivity.
Qed.

(** *** The loops of the article script *)

Lemma article_step_eq (rt : runtime) (w : world) (c : str) (s : nat)
    (f : list (str * str)) (fs : fsys) (slug title : str) :
  article_step rt w c (s, f, fs) (slug, title)
  = let r := save_article rt w fs (article_url slug)
               (pjoin (pjoin ARTICLES_BASE c) (article_filename rt slug title)) c in
    if r.1 then (S s, f, r.2) else (s, f ++ [(article_url slug, title)], r.2).
Proof.
  unfold article_step.
  destruct (save_article rt w fs (article_url slug)
              (pjoin (pjoin ARTICLES_BASE c) (article_filename rt slug title)) c) as [[] fs'];
    reflexivity.
Qed.

(** The loops only append to the failed list, and what they do does not
    depend on it. *)
Lemma article_loop_failed (rt : runtime) (w : world) (c : str) (l : list (str * str)) :
  forall (s : nat) (fs : fsys), exists s' d fs', forall f,
    foldl (article_step rt w c) (s, f, fs) l = (s', f ++ d, fs').
Proof.
  induction l as [|[slug title] l IH]; intros s fs.
  - exists s, [], fs. intros f. rewrite app_nil_r. reflexivity.
  - set (r := save_article rt w fs (article_url slug)
                (pjoin (pjoin ARTICLES_BASE c) (article_filename rt slug title)) c).
    destruct r.1 eqn:E.
    + destruct (IH (S s) r.2) as (s' & d & fs' & H). exists s', d, fs'. intros f.
      rewrite foldl_step, article_step_eq. fold r. simpl. rewrite E. apply H.
    + destruct (IH s r.2) as (s' & d & fs' & H).
      exists s', ((article_url slug, title) :: d), fs'. intros f.
      rewrite foldl_step, article_step_eq. fold r. simpl. rewrite E, H, <- app_assoc.
      reflexivity.
Qed.

Lemma articles_loop_failed (rt : runtime) (w : world)
    (cats : list (str * list (str * str))) :
  forall (s : nat) (fs : fsys), exists s' d fs', forall f,
    foldl (fun st ca => foldl (article_step rt w ca.1) st ca.2) (s, f, fs) cats
    = (s', f ++ d, fs').
Proof.
  induction cats as [|[c l] cats IH]; intros s fs.
  - exists s, [], fs. intros f. rewrite app_nil_r. reflexivity.
  - destruct (article_loop_failed rt w c l s fs) as (s1 & d1 & fs1 & H1).
    destruct (IH s1 fs1) as (s2 & d2 & fs2 & H2).
    exists s2, (d1 ++ d2), fs2. intros f. rewrite foldl_step. simpl.
    rewrite H1, H2, <- app_assoc. reflexivity.
Qed.

Lemma articles_main_eq (rt : runtime) (w : world)
    (articles : list (str * list (str * str))) (fs : fsys) (s : nat)
    (f : list (str * str)) (fs' : fsys) :
  foldl (fun st ca => foldl (article_step rt w ca.1) st ca.2) (O, [], fs) articles
  = (s, f, fs') ->
  articles_main rt w articles fs
  = (list_sum (map (fun ca => length ca.2) articles), s, f, fs').
Proof. intros H. unfold articles_main. rewrite H. reflexivity. Qed.

(** C2: a fetch that times out or answers 404 raises nothing past the
    fetcher: [download] returns False and [fetch_article] None, the files
    unchanged, and the article saver (for a file that is not there yet)
    returns False.  In a run of the help-image script the entry counts as
    one more attempt and one more failure, no more success and no change of
    the files, and the run goes on: each of the entries after it counts once,
    as a success or as a failure, on top of that, and every later entry that
    can be fetched and written is in the files at the end.  In a run of the
    article script over a manifest that holds the entry, when its file is not
    there as its turn comes, the outcome is that of the run over the manifest
    without the entry, except for one more attempt and for the one entry (URL
    and title) that the failed list holds more, at the place of the entry. *)
Theorem fetch_failure_contained (rt : runtime) (w : world) (url : str) :
  fetch_fails w url ->
  (forall (fs : fsys) (p : path_t), download w fs url p = (false, fs))
  /\ fetch_article rt w url = None
  /\ (forall (fs : fsys) (p : path_t) (category : str), fs !! p = None ->
        save_article rt w fs url p category = (false, fs))
  /\ (forall (pre : list str) (fs : fsys) (t1 s1 f1 : nat) (fs1 : fsys),
        help_images_main w pre fs = (t1, s1, f1, fs1) ->
        help_images_main w (pre ++ [url]) fs = (S t1, s1, S f1, fs1))
  /\ (forall (pre post : list str) (fs : fsys) (t1 s1 f1 : nat) (fs1 : fsys)
             (t s f : nat) (fs' : fsys),
        help_images_main w pre fs = (t1, s1, f1, fs1) ->
        help_images_main w (pre ++ url :: post) fs = (t, s, f, fs') ->
        t = S (t1 + length post) /\ (s1 <= s)%nat /\ (S f1 <= f)%nat
        /\ ((s - s1) + (f - S f1) = length post)%nat)
  /\ (forall (pre post : list str) (fs : fsys) (j : nat) (u : str) (st : N)
             (body : list N),
        post !! j = Some u -> net w u = Http st body -> 200 <= st < 300 ->
        disk w (help_output_path (S (length pre + j)) u) body = Written ->
        (help_images_main w (pre ++ url :: post) fs).2
          !! help_output_path (S (length pre + j)) u = Some body)
  /\ (forall (A B : list (str * list (str * str))) (c : str)
             (l1 l2 : list (str * str)) (slug title : str) (fs : fsys)
             (t1 s1 : nat) (f1 : list (str * str)) (fs1 : fsys),
        article_url slug = url ->
        articles_main rt w (A ++ [(c, l1)]) fs = (t1, s1, f1, fs1) ->
        fs1 !! pjoin (pjoin ARTICLES_BASE c) (article_filename rt slug title) = None ->
        exists (t s : nat) (f2 : list (str * str)) (fs' : fsys),
          articles_main rt w (A ++ (c, l1 ++ l2) :: B) fs = (t, s, f1 ++ f2, fs')
          /\ articles_main rt w (A ++ (c, l1 ++ (slug, title) :: l2) :: B) fs
             = (S t, s, f1 ++ (url, title) :: f2, fs')).
Proof.
  intros Hf. pose proof (fetch_fails_urlopen w url Hf) as Ho.
  assert (Hd : forall (fs : fsys) (p : path_t), download w fs url p = (false, fs))
    by (intros; rewrite download_spec, Ho; reflexivity).
  assert (Ha : fetch_article rt w url = None)
    by (unfold fetch_article; rewrite Ho; reflexivity).
  assert (Hs : forall (fs : fsys) (p : path_t) (category : str), fs !! p = None ->
                 save_article rt w fs url p category = (false, fs))
    by (intros fs p c Hp; unfold save_article; rewrite Hp, Ha; reflexivity).
  split; [exact Hd|]. split; [exact Ha|]. split; [exact Hs|].
  split; [|split; [|split]].
  - intros pre fs t1 s1 f1 fs1. rewrite !help_images_main_eq, foldl_snoc.
    destruct (foldl (help_step w) (O, O, fs) pre) as [[i s] fs0] eqn:E.
    rewrite help_step_eq, Hd. simpl. intros H. injection H as <- <- <- <-.
    apply help_loop_counts in E. rewrite length_app. simpl.
    repeat f_equal; lia.
  - intros pre post fs t1 s1 f1 fs1 t s f fs'.
    rewrite !help_images_main_eq, foldl_app, foldl_step.
    destruct (foldl (help_step w) (O, O, fs) pre) as [[i0 s0] fs0] eqn:E.
    rewrite help_step_eq, Hd. simpl.
    destruct (foldl (help_step w) (S i0, s0, fs0) post) as [[i2 s2] fs2] eqn:E2.
    simpl. intros H H'. injection H as <- <- <- <-. injection H' as <- <- <- <-.
    apply help_loop_counts in E, E2. rewrite length_app. simpl. lia.
  - intros pre post fs j u st body Hj Hn Hst Hw.
    rewrite help_images_main_eq. simpl.
    replace (S (length pre + j)) with (0 + (length pre + S j))%nat in * by lia.
    apply (help_loop_written w _ _ _ _ _ _ st); try assumption.
    rewrite lookup_app_r by lia.
    replace (length pre + S j - length pre)%nat with (S j) by lia. exact Hj.
  - intros A B c l1 l2 slug title fs t1 s1 f1 fs1 Hu H1 Hp.
    set (cat := fun (st : nat * list (str * str) * fsys) (ca : str * list (str * str)) =>
                  foldl (article_step rt w ca.1) st ca.2) in *.
    destruct (foldl cat (O, [], fs) (A ++ [(c, l1)])) as [[s0 f0] fs0] eqn:E1.
    rewrite (articles_main_eq _ _ _ _ _ _ _ E1) in H1. injection H1 as _ <- <- <-.
    rewrite foldl_snoc in E1. unfold cat at 1 in E1. simpl in E1.
    destruct (article_loop_failed rt w c l2 s0 fs0) as (s2 & d2 & fs2 & H2).
    destruct (articles_loop_failed rt w B s2 fs2) as (s3 & d3 & fs3 & H3).
    fold cat in H3.
    exists (list_sum (map (fun ca => length ca.2) (A ++ (c, l1 ++ l2) :: B))), s3,
      (d2 ++ d3), fs3. split.
    + apply articles_main_eq. fold cat. rewrite foldl_app, foldl_step.
      unfold cat at 2. simpl. rewrite foldl_app, E1, H2, H3, <- app_assoc. reflexivity.
    + erewrite articles_main_eq.
      * f_equal. f_equal. f_equal. rewrite !map_app, !list_sum_app. simpl.
        rewrite !length_app. simpl. lia.
      * fold cat. rewrite foldl_app, foldl_step.
        unfold cat at 2. simpl. rewrite foldl_app, E1, foldl_step, article_step_eq.
        rewrite Hu, (Hs _ _ _ Hp). simpl. rewrite H2, H3, <- !app_assoc. reflexivity.
Qed.

Lemma fetch_failure_contained_witness :
  fetch_article rt_eval world_down (U "https://help.frame.io/en/articles/1-a") = None
  /\ help_images_main world_down ([] ++ [U "https://help.frame.io/en/articles/1-a"]) ∅
     = (1%nat, O, 1%nat, ∅).
Proof.
  pose proof (fetch_failure_contained rt_eval world_down
                (U "https://help.frame.io/en/articles/1-a") (or_introl eq_refl))
    as (_ & H2 & _ & H4 & _).
  split; [exact H2|exact (H4 [] ∅ O O O ∅ eq_refl)].
Defined.

(** * Further properties of the scripts *)

(** ** The image writers *)





(** ** The article saver *)








(** ** The content extractor *)








(** ** White space of the converted text *)















(** ** Names and counters of the image scripts *)












(** ** What the extractor returns *)





(** ** The page scraper *)










(** ** More on the loops *)





